(** * vscode-gpg-indicator: the agent client, the key catalog and the
      unlock command, embedded and checked against their specification.

    The development follows the sources:
    - [Assuan]: the interface of [indicator/assuan] that [indicator/gpg]
      programs against (requests, responses, the client operations), with
      the codec and the session state machine of the specification;
    - [Gpg]: [indicator/gpg] ([sign], [parseGpgKey], [isKeyUnlocked],
      [getKeyInfo], [unlockByKey]);
    - [Extension]: [KeyStatusManager] of [extension.ts] ([syncStatus],
      [notifyUpdate], [unlockCurrentKey]).

    JavaScript strings are modelled as [string] (a sequence of bytes, the
    UTF-8 encoding of the text); every separator and literal the code looks
    for is ASCII, so splitting, searching and comparing agree on both
    views.  Asynchronous functions are run to completion, one at a time:
    a promise that rejects is a computation that returns an error, and no
    other task of the extension runs between two steps of the one that is
    followed.  Update functions registered with the manager are taken to
    return normally. *)

From Stdlib Require Import String Ascii List Bool Arith Lia.
From Stdlib Require Import Strings.Byte.
From stdpp Require Import gmap strings.
Import ListNotations.

(** ** Errors and the state-and-error monad of the embedding *)

Module Assuan.

(** Modelled from the spec: the response kinds of [assuan.ResponseType].
    The sources name [ok], [rawData], [information] and [inquire]; the
    specification adds the error and comment kinds. *)
Inductive ResponseType : Type :=
| ok | err | rawData | information | inquire | comment.

Definition ResponseType_eqb (a b : ResponseType) : bool :=
  match a, b with
  | ok, ok | err, err | rawData, rawData
  | information, information | inquire, inquire | comment, comment => true
  | _, _ => false
  end.

(** What a computation can fail with.  [JsError m] is [throw new Error(m)]
    of the sources; [NotAnError v] is a thrown value that is not an
    [Error] object; the other constructors are the error taxonomy of the
    specification, raised by the parts of [assuan] that are not among the
    sources ([InvalidRequest] is the rejected command text, which the
    specification leaves unnamed). *)
Inductive Error : Type :=
| JsError (message : string)
| UnexpectedResponse (expected actual : ResponseType)
| ConnectionError
| IOError
| EndOfStream
| ProtocolViolation
| SessionClosed
| ParseError
| InvalidRequest
| NotAnError (value : string).

(** Modelled from the spec: the tagged union [Response]. *)
Inductive Response : Type :=
| Ok (text : string)
| Err (code : N) (description : string)
| RawData (bytes : list byte)
| Information (keyword text : string)
| Inquire (keyword : string)
| Comment (text : string).

(** [new RequestCommand(command, parameters?)] *)
Record RequestCommand : Type := mkRequestCommand {
  command : string;
  parameters : option string
}.

(** [new RequestRawData(buffer)] *)
Record RequestRawData : Type := mkRequestRawData {
  payload : list byte
}.

(** [Request.fromCommand] and [Request.fromRawData] *)
Inductive Request : Type :=
| fromCommand (c : RequestCommand)
| fromRawData (d : RequestRawData).

(** [response.getType()] *)
Definition getType (r : Response) : ResponseType :=
  match r with
  | Ok _ => ok
  | Err _ _ => err
  | RawData _ => rawData
  | Information _ _ => information
  | Inquire _ => inquire
  | Comment _ => comment
  end.

(** Computations over a world [W] that may throw. *)
Definition M (W T : Type) : Type := W -> (Error + T) * W.

Definition ret {W T} (x : T) : M W T := fun w => (inr x, w).
Definition throw {W T} (e : Error) : M W T := fun w => (inl e, w).
Definition bind {W T U} (m : M W T) (k : T -> M W U) : M W U :=
  fun w =>
    match m w with
    | (inr x, w') => k x w'
    | (inl e, w') => (inl e, w')
    end.

(** [try { body } finally { cleanup }] with a cleanup that cannot throw. *)
Definition try_finally {W T} (body : M W T) (cleanup : W -> W) : M W T :=
  fun w => let (r, w') := body w in (r, cleanup w').

(** [try { body } catch (e) { handler e }] *)
Definition try_catch {W T} (body : M W T) (handler : Error -> M W T) : M W T :=
  fun w =>
    match body w with
    | (inr x, w') => (inr x, w')
    | (inl e, w') => handler e w'
    end.

(** [response.checkType(expected)]: the assertion after every step. *)
Definition checkType {W} (r : Response) (expected : ResponseType) : M W unit :=
  if ResponseType_eqb (getType r) expected then ret tt
  else throw (UnexpectedResponse expected (getType r)).

(** The operations of [AssuanClient] that [sign] calls.  Their code is not
    among the sources, so the client is a parameter: any state type with
    these four operations.  An operation that rejects returns its error. *)
Class AssuanClient (A : Type) : Type := {
  initialize : A -> option Error * A;
  sendRequest : Request -> A -> option Error * A;
  receiveResponse : A -> (Error + Response) * A;
  dispose : A -> A
}.

(** One entry per call made on the client, with what the call gave. *)
Inductive Event : Type :=
| EInitialize (r : option Error)
| ESend (req : Request) (r : option Error)
| EReceive (r : Error + Response)
| EDispose.

(** A connection: the client and the calls made on it so far. *)
Record Conn (A : Type) : Type := mkConn {
  agent : A;
  trace : list Event
}.
Arguments mkConn {A} _ _.
Arguments agent {A} _.
Arguments trace {A} _.

Definition of_option (o : option Error) : Error + unit :=
  match o with
  | Some e => inl e
  | None => inr tt
  end.

Section Calls.
Context {A : Type} `{AssuanClient A}.

Definition agent_initialize : M (Conn A) unit :=
  fun c =>
    let (r, a) := initialize (agent c) in
    (of_option r, mkConn a (trace c ++ [EInitialize r])).

Definition agent_sendRequest (req : Request) : M (Conn A) unit :=
  fun c =>
    let (r, a) := sendRequest req (agent c) in
    (of_option r, mkConn a (trace c ++ [ESend req r])).

Definition agent_receiveResponse : M (Conn A) Response :=
  fun c =>
    let (r, a) := receiveResponse (agent c) in
    (r, mkConn a (trace c ++ [EReceive r])).

Definition agent_dispose (c : Conn A) : Conn A :=
  mkConn (dispose (agent c)) (trace c ++ [EDispose]).
End Calls.

(** A scripted peer: every call succeeds and the responses are handed out
    in order; reading past the end of the script is the end of the
    stream. *)
Definition scripted : AssuanClient (list Response) := {|
  initialize := fun s => (None, s);
  sendRequest := fun _ s => (None, s);
  receiveResponse := fun s =>
    match s with
    | [] => (inl EndOfStream, [])
    | r :: s' => (inr r, s')
    end;
  dispose := fun s => s
|}.

(** An endpoint that cannot be reached: [initialize] rejects. *)
Definition unreachable : AssuanClient unit := {|
  initialize := fun s => (Some ConnectionError, s);
  sendRequest := fun _ s => (Some SessionClosed, s);
  receiveResponse := fun s => (inl SessionClosed, s);
  dispose := fun s => s
|}.

(** The requests written, in order, and the payloads of the raw-data ones. *)
Fixpoint sent (t : list Event) : list Request :=
  match t with
  | [] => []
  | ESend req _ :: t' => req :: sent t'
  | _ :: t' => sent t'
  end.

Fixpoint payloads (l : list Request) : list (list byte) :=
  match l with
  | [] => []
  | fromRawData d :: l' => payload d :: payloads l'
  | fromCommand _ :: l' => payloads l'
  end.

Fixpoint commands (l : list Request) : list string :=
  match l with
  | [] => []
  | fromCommand c :: l' => command c :: commands l'
  | fromRawData _ :: l' => commands l'
  end.

Fixpoint disposals (t : list Event) : nat :=
  match t with
  | [] => 0
  | EDispose :: t' => S (disposals t')
  | _ :: t' => disposals t'
  end.

End Assuan.


(** ** The codec and the session of the specification *)

Module Codec.
Import Assuan.

Definition bytes (s : string) : list byte := list_byte_of_string s.

(** Modelled from the spec: the cap on the length of one wire line, the
    [D ] prefix included. *)
Definition MAX_LINE : nat := 1000.

Definition percent : byte := x25.

(** Modelled from the spec: the escaped set is percent, CR, LF and NUL. *)
Definition needs_escape (b : byte) : bool :=
  Byte.eqb b x25 || Byte.eqb b x0d || Byte.eqb b x0a || Byte.eqb b x00.

Definition hexdigit (n : N) : byte :=
  nth (N.to_nat n) (bytes "0123456789ABCDEF") x30.

(** Modelled from the spec: one byte of payload on the wire, [%XX] in
    uppercase hexadecimal for the escaped set. *)
Definition escape (b : byte) : list byte :=
  if needs_escape b
  then [percent; hexdigit (Byte.to_N b / 16); hexdigit (Byte.to_N b mod 16)]
  else [b].

(** Modelled from the spec: [encodeData] fills a line while the next
    escaped byte still fits under the cap and starts a new line when it
    does not; an escape sequence is never cut in two. *)
Fixpoint pack (room : nat) (line : list byte) (bs : list byte)
  : list (list byte) :=
  match bs with
  | [] => [line]
  | b :: bs' =>
      let e := escape b in
      if length e <=? room then pack (room - length e) (line ++ e) bs'
      else line :: pack (MAX_LINE - 2 - length e) e bs'
  end.

Definition encodeData (payload : list byte) : list (list byte) :=
  map (app (bytes "D ")) (pack (MAX_LINE - 2) [] payload).

Definition has_line_break (l : list byte) : bool :=
  existsb (fun b => Byte.eqb b x0a || Byte.eqb b x0d) l.

(** Modelled from the spec: [encodeCommand] gives the single line
    [NAME argument-string] and rejects text with a line terminator. *)
Definition encodeCommand (c : RequestCommand) : Error + list byte :=
  let line :=
    match parameters c with
    | Some arg => bytes (command c) ++ bytes " " ++ bytes arg
    | None => bytes (command c)
    end in
  if has_line_break line then inl InvalidRequest else inr line.

Definition encodeRequest (req : Request) : Error + list (list byte) :=
  match req with
  | fromCommand c =>
      match encodeCommand c with
      | inr line => inr [line]
      | inl e => inl e
      end
  | fromRawData d => inr (encodeData (payload d))
  end.

Definition unhex (b : byte) : option N :=
  match b with
  | x30 => Some 0%N | x31 => Some 1%N | x32 => Some 2%N | x33 => Some 3%N
  | x34 => Some 4%N | x35 => Some 5%N | x36 => Some 6%N | x37 => Some 7%N
  | x38 => Some 8%N | x39 => Some 9%N
  | x41 => Some 10%N | x42 => Some 11%N | x43 => Some 12%N
  | x44 => Some 13%N | x45 => Some 14%N | x46 => Some 15%N
  | _ => None
  end.

(** Modelled from the spec: the inverse of the escaping; a percent sign
    that is not followed by two hexadecimal digits is malformed. *)
Fixpoint unescape (l : list byte) : option (list byte) :=
  match l with
  | [] => Some []
  | b :: rest =>
      if Byte.eqb b percent then
        match rest with
        | hi :: lo :: rest' =>
            match unhex hi, unhex lo with
            | Some h, Some lw =>
                match Byte.of_N (16 * h + lw), unescape rest' with
                | Some v, Some out => Some (v :: out)
                | _, _ => None
                end
            | _, _ => None
            end
        | _ => None
        end
      else
        match unescape rest with
        | Some out => Some (b :: out)
        | None => None
        end
  end.

Fixpoint strip_prefix (w l : list byte) : option (list byte) :=
  match w with
  | [] => Some l
  | a :: w' =>
      match l with
      | b :: l' => if Byte.eqb a b then strip_prefix w' l' else None
      | [] => None
      end
  end.

(** The text up to the first blank, and the text after it. *)
Fixpoint break_blank (l : list byte) : list byte * list byte :=
  match l with
  | [] => ([], [])
  | b :: l' =>
      if Byte.eqb b x20 then ([], l')
      else let (w, rest) := break_blank l' in (b :: w, rest)
  end.

Definition digit (b : byte) : option N :=
  match unhex b with
  | Some d => if (d <? 10)%N then Some d else None
  | None => None
  end.

Fixpoint decimal (acc : N) (l : list byte) : option N :=
  match l with
  | [] => Some acc
  | b :: l' =>
      match digit b with
      | Some d => decimal (10 * acc + d) l'
      | None => None
      end
  end.

Definition text (l : list byte) : string := string_of_list_byte l.

(** Modelled from the spec: [decodeLine] classifies a line by its prefix. *)
Definition decodeLine (line : list byte) : Error + Response :=
  match strip_prefix (bytes "D ") line with
  | Some data =>
      match unescape data with
      | Some out => inr (RawData out)
      | None => inl ParseError
      end
  | None =>
  match strip_prefix (bytes "OK") line with
  | Some [] => inr (Ok EmptyString)
  | Some (b :: info) =>
      if Byte.eqb b x20 then inr (Ok (text info)) else inl ParseError
  | None =>
  match strip_prefix (bytes "ERR ") line with
  | Some rest =>
      let (code, description) := break_blank rest in
      match code, decimal 0 code with
      | _ :: _, Some n => inr (Err n (text description))
      | _, _ => inl ParseError
      end
  | None =>
  match strip_prefix (bytes "S ") line with
  | Some rest =>
      let (keyword, info) := break_blank rest in
      inr (Information (text keyword) (text info))
  | None =>
  match strip_prefix (bytes "INQUIRE ") line with
  | Some keyword => inr (Inquire (text keyword))
  | None =>
  match strip_prefix (bytes "#") line with
  | Some note => inr (Comment (text note))
  | None => inl ParseError
  end end end end end end.

(** The payload carried by a run of data lines, in order. *)
Fixpoint decodeData (lines : list (list byte)) : Error + list byte :=
  match lines with
  | [] => inr []
  | line :: lines' =>
      match decodeLine line with
      | inr (RawData chunk) =>
          match decodeData lines' with
          | inr out => inr (chunk ++ out)
          | inl e => inl e
          end
      | inr _ => inl ParseError
      | inl e => inl e
      end
  end.

End Codec.

Module Session.
Import Assuan Codec.

(** Modelled from the spec: the transport, a connection that hands out
    the lines the peer wrote and keeps the lines written to it. *)
Record Transport : Type := mkTransport {
  reachable : bool;
  incoming : list (list byte);
  outgoing : list (list byte);
  closed : bool
}.

Definition writeLine (line : list byte) (t : Transport) : option Error * Transport :=
  if closed t then (Some IOError, t)
  else (None, mkTransport (reachable t) (incoming t) (outgoing t ++ [line]) false).

Fixpoint writeLines (lines : list (list byte)) (t : Transport)
  : option Error * Transport :=
  match lines with
  | [] => (None, t)
  | line :: lines' =>
      match writeLine line t with
      | (None, t') => writeLines lines' t'
      | (Some e, t') => (Some e, t')
      end
  end.

Definition close (t : Transport) : Transport :=
  mkTransport (reachable t) (incoming t) (outgoing t) true.

(** Modelled from the spec: the states of a session. *)
Inductive State : Type :=
| AwaitingGreeting | Ready | AwaitingResponse | Closed.

Record Session : Type := mkSession {
  transport : Transport;
  state : State
}.

(** Modelled from the spec: [initialize] opens the transport and enters
    [AwaitingGreeting]. *)
Definition initialize (s : Session) : option Error * Session :=
  match state s with
  | Closed => (Some SessionClosed, s)
  | _ =>
      if reachable (transport s)
      then (None, mkSession (transport s) AwaitingGreeting)
      else (Some ConnectionError, s)
  end.

(** Modelled from the spec: [sendRequest] is valid only in [Ready]; it
    writes the request and enters [AwaitingResponse]. *)
Definition sendRequest (req : Request) (s : Session) : option Error * Session :=
  match state s with
  | Closed => (Some SessionClosed, s)
  | Ready =>
      match encodeRequest req with
      | inl e => (Some e, s)
      | inr lines =>
          match writeLines lines (transport s) with
          | (None, t) => (None, mkSession t AwaitingResponse)
          | (Some e, t) => (Some e, mkSession t Ready)
          end
      end
  | AwaitingGreeting | AwaitingResponse => (Some ProtocolViolation, s)
  end.

(** The next line that is not a comment, decoded. *)
Fixpoint next_response (lines : list (list byte))
  : (Error + Response) * list (list byte) :=
  match lines with
  | [] => (inl EndOfStream, [])
  | line :: lines' =>
      match decodeLine line with
      | inr (Comment _) => next_response lines'
      | r => (r, lines')
      end
  end.

(** Modelled from the spec: [receiveResponse] skips comments, returns the
    next response and goes back to [Ready]. *)
Definition receiveResponse (s : Session) : (Error + Response) * Session :=
  match state s with
  | Closed => (inl SessionClosed, s)
  | st =>
      let t := transport s in
      let (r, rest) := next_response (incoming t) in
      let t' := mkTransport (reachable t) rest (outgoing t) (closed t) in
      match r with
      | inr _ => (r, mkSession t' Ready)
      | inl _ => (r, mkSession t' st)
      end
  end.

(** Modelled from the spec: [dispose] closes the transport; idempotent. *)
Definition dispose (s : Session) : Session :=
  mkSession (close (transport s)) Closed.

(** The session as a client of [sign]. *)
Definition strict : AssuanClient Session := {|
  Assuan.initialize := initialize;
  Assuan.sendRequest := sendRequest;
  Assuan.receiveResponse := receiveResponse;
  Assuan.dispose := dispose
|}.

(** A session about to be opened on a peer that will write [lines]. *)
Definition fresh (lines : list (list byte)) : Session :=
  mkSession (mkTransport true lines [] false) AwaitingGreeting.

End Session.

Declare Scope js_scope.
Delimit Scope js_scope with js.
Notation "x <- m ;; k" := (Assuan.bind m (fun x => k))
  (at level 100, m at next level, right associativity) : js_scope.
Notation "m ;;; k" := (Assuan.bind m (fun _ => k))
  (at level 100, right associativity) : js_scope.

Module Gpg.
Import Assuan.
Local Open Scope js_scope.

Record GpgKeyInfo : Type := mkGpgKeyInfo {
  type : string;
  capabilities : string;
  fingerprint : string;
  keygrip : string
}.

Definition Command (name : string) (arg : option string) : Request :=
  fromCommand (mkRequestCommand name arg).

Section Sign.
Context {A : Type} `{AssuanClient A}.

(** The script between [try] and [finally] of [sign]. *)
Definition sign_script (keygrip passphrase sha1Hash : string) : M (Conn A) unit :=
  response <- agent_receiveResponse ;;
  checkType response ok ;;;
  agent_sendRequest (Command "OPTION" (Some "pinentry-mode loopback")) ;;;
  response <- agent_receiveResponse ;;
  checkType response ok ;;;
  agent_sendRequest (Command "SIGKEY" (Some keygrip)) ;;;
  response <- agent_receiveResponse ;;
  checkType response ok ;;;
  agent_sendRequest (Command "SETHASH" (Some ("--hash=sha1 " +:+ sha1Hash))) ;;;
  response <- agent_receiveResponse ;;
  checkType response ok ;;;
  agent_sendRequest (Command "PKSIGN" None) ;;;
  response <- agent_receiveResponse ;;
  (match getType response with
   | rawData =>
       response <- agent_receiveResponse ;;
       checkType response ok
   | information =>
       response <- agent_receiveResponse ;;
       checkType response inquire ;;;
       agent_sendRequest
         (fromRawData (mkRequestRawData (list_byte_of_string passphrase))) ;;;
       agent_sendRequest (Command "END" None) ;;;
       response <- agent_receiveResponse ;;
       checkType response rawData ;;;
       response <- agent_receiveResponse ;;
       checkType response ok
   | _ => throw (JsError "unhandled signing flow")
   end) ;;;
  agent_sendRequest (Command "BYE" None) ;;;
  response <- agent_receiveResponse ;;
  checkType response ok.

(** [sign(logger, socketPath, keygrip, passphrase, sha1Hash)], started on
    the client that [new AssuanClient(logger, socketPath)] gave. *)
Definition sign (client : A) (keygrip passphrase sha1Hash : string)
  : (Error + unit) * Conn A :=
  (agent_initialize ;;;
   try_finally (sign_script keygrip passphrase sha1Hash) agent_dispose)
    (mkConn client []).
End Sign.


(** *** Strings the way the code uses them *)

Definition LF : ascii := "010"%char.
Definition nl : string := String LF "".

(** [strip w s]: what follows [w] when [s] starts with [w]. *)
Fixpoint strip (w s : string) : option string :=
  match w with
  | EmptyString => Some s
  | String a w' =>
      match s with
      | String b s' => if Ascii.eqb a b then strip w' s' else None
      | EmptyString => None
      end
  end.

Fixpoint take (n : nat) (s : string) : string :=
  match n, s with
  | S n', String c s' => String c (take n' s')
  | _, _ => EmptyString
  end.

(** [s.includes(sub)] *)
Fixpoint includes (s sub : string) : bool :=
  match strip sub s with
  | Some _ => true
  | None =>
      match s with
      | String _ s' => includes s' sub
      | EmptyString => false
      end
  end.

(** [s.split(sep)] for a one-character separator: never empty, and an
    empty piece between two adjacent separators. *)
Fixpoint split (sep : ascii) (s : string) : list string :=
  match s with
  | EmptyString => [EmptyString]
  | String c s' =>
      if Ascii.eqb c sep then EmptyString :: split sep s'
      else
        match split sep s' with
        | piece :: pieces => String c piece :: pieces
        | [] => [String c EmptyString]
        end
  end.

(** *** The regular expressions of [parseGpgKey]

    A backtracking matcher in continuation-passing style, the way
    ECMAScript defines [RegExp]: an alternative or one more iteration is
    tried only when everything after the choice has failed. *)
Inductive regex : Type :=
| Lit (w : string)
| Class (p : ascii -> bool)
| Seq (r1 r2 : regex)
| Alt (r1 r2 : regex)
| Star (greedy : bool) (r : regex)
| Repeat (n : nat) (r : regex)
| Group (i : nat) (r : regex).

Definition Plus (r : regex) : regex := Seq r (Star true r).

(** The capture array of a match, by group number. *)
Abbreviation Captures := (gmap nat string).
Abbreviation Cont := (string -> Captures -> option (Captures * string)).

Definition orelse {T} (a b : option T) : option T :=
  match a with
  | Some x => Some x
  | None => b
  end.

(** The iterations of a starred expression whose body is matched by
    [step].  An iteration that consumes nothing is rejected, so there are
    at most as many iterations as characters: [fuel] is the length of the
    text at the start.  A greedy star tries one more iteration before
    what follows, a lazy one what follows before one more iteration. *)
Fixpoint star_loop (step : string -> Captures -> Cont -> option (Captures * string))
  (greedy : bool) (k : Cont) (fuel : nat) (s : string) (caps : Captures)
  {struct fuel} : option (Captures * string) :=
  match fuel with
  | O => k s caps
  | S fuel' =>
      let again :=
        step s caps
          (fun s' caps' =>
             if String.length s' <? String.length s
             then star_loop step greedy k fuel' s' caps' else None) in
      if greedy then orelse again (k s caps)
      else orelse (k s caps) again
  end.

(** Exactly [n] iterations. *)
Fixpoint repeat_loop (step : string -> Captures -> Cont -> option (Captures * string))
  (k : Cont) (n : nat) (s : string) (caps : Captures)
  {struct n} : option (Captures * string) :=
  match n with
  | O => k s caps
  | S n' => step s caps (fun s' caps' => repeat_loop step k n' s' caps')
  end.

Fixpoint matcher (r : regex) (s : string) (caps : Captures) (k : Cont)
  {struct r} : option (Captures * string) :=
  match r with
  | Lit w =>
      match strip w s with
      | Some s' => k s' caps
      | None => None
      end
  | Class p =>
      match s with
      | String c s' => if p c then k s' caps else None
      | EmptyString => None
      end
  | Seq r1 r2 => matcher r1 s caps (fun s' caps' => matcher r2 s' caps' k)
  | Alt r1 r2 => orelse (matcher r1 s caps k) (matcher r2 s caps k)
  | Star greedy r1 => star_loop (matcher r1) greedy k (String.length s) s caps
  | Repeat n r1 => repeat_loop (matcher r1) k n s caps
  | Group i r1 =>
      matcher r1 s caps
        (fun s' caps' =>
           k s' (<[i := take (String.length s - String.length s') s]> caps'))
  end.

Definition accept : Cont := fun s caps => Some (caps, s).

(** Character classes of the pattern. *)
Definition not_colon (c : ascii) : bool := negb (Ascii.eqb c ":").
Definition capability (c : ascii) : bool :=
  existsb (Ascii.eqb c) ["e"; "s"; "c"; "a"; "D"; "?"]%char.
Definition between (lo hi c : ascii) : bool :=
  (nat_of_ascii lo <=? nat_of_ascii c) && (nat_of_ascii c <=? nat_of_ascii hi).
Definition word (c : ascii) : bool :=
  between "a" "z" c || between "A" "Z" c || between "0" "9" c || Ascii.eqb c "_".

Declare Scope regex_scope.
Delimit Scope regex_scope with regex.
Infix ">>" := Seq (at level 60, right associativity) : regex_scope.

(** [[^:]*:] *)
Definition field : regex := (Star true (Class not_colon) >> Lit ":")%regex.

(** The pattern of [parseGpgKey].  In the source it reads, with a blank
    put here inside the groups 3 and 4 to keep this comment well formed,

    /(pub|sub):(?:[^:]*:){10}([escaD?]+)\w*:(?:[^:]*:)*?\n(?:fpr|fp2):(?:[^:]*:){8}(\w* ):(?:[^:]*:)*?\ngrp:(?:[^:]*:){8}(\w* ):(?:[^:]*:)*?/g

    that is: group 1 is pub or sub, then a colon, ten fields, group 2 (one
    or more of e s c a D ?), word characters and a colon, fields (as few
    as possible), a line feed, fpr or fp2 and a colon, eight fields,
    group 3 (word characters) and a colon, fields (as few as possible), a
    line feed and grp with its colon, eight fields, group 4 (word
    characters) and a colon, fields (as few as possible).  A class that
    excludes the colon does not exclude the line feed. *)
Definition pattern : regex :=
  (Group 1 (Alt (Lit "pub") (Lit "sub")) >> Lit ":" >>
   Repeat 10 field >>
   Group 2 (Plus (Class capability)) >> Star true (Class word) >> Lit ":" >>
   Star false field >>
   Lit nl >> Alt (Lit "fpr") (Lit "fp2") >> Lit ":" >>
   Repeat 8 field >>
   Group 3 (Star true (Class word)) >> Lit ":" >>
   Star false field >>
   Lit nl >> Lit "grp:" >>
   Repeat 8 field >>
   Group 4 (Star true (Class word)) >> Lit ":" >>
   Star false field)%regex.

(** One [pattern.exec(rawText)] of a global pattern: the leftmost position
    at or after [lastIndex] where the pattern matches; the text given here
    is the part of [rawText] from [lastIndex] on, and the text returned
    the part from the new [lastIndex] on. *)
Fixpoint exec (s : string) : option (Captures * string) :=
  match matcher pattern s ∅ accept with
  | Some m => Some m
  | None =>
      match s with
      | String _ s' => exec s'
      | EmptyString => None
      end
  end.

Definition matched (caps : Captures) (i : nat) : string :=
  default EmptyString (caps !! i).

Definition info_of (caps : Captures) : GpgKeyInfo :=
  {| type := matched caps 1;
     capabilities := matched caps 2;
     fingerprint := matched caps 3;
     keygrip := matched caps 4 |}.

(** The [while] loop of [parseGpgKey]; every round consumes text, so
    [fuel] rounds with [fuel] above the length of the text never run
    out (lemma [parse_loop_fuel]). *)
Fixpoint parse_loop (fuel : nat) (s : string) : list GpgKeyInfo :=
  match fuel with
  | O => []
  | S fuel' =>
      match exec s with
      | Some (caps, rest) => info_of caps :: parse_loop fuel' rest
      | None => []
      end
  end.

Definition parseGpgKey (rawText : string) : list GpgKeyInfo :=
  parse_loop (S (String.length rawText)) rawText.

(** The [for] loop of [getKeyInfo]. *)
Fixpoint getKeyInfo_search (infos : list GpgKeyInfo) (keyId : string)
  : Error + GpgKeyInfo :=
  match infos with
  | [] => inl (JsError ("Cannot find key with ID: " +:+ keyId))
  | info :: infos' =>
      if includes (fingerprint info) keyId then inr info
      else getKeyInfo_search infos' keyId
  end.

(** [isKeyUnlocked] from the output of the agent query on. *)
Definition isKeyUnlocked_outputs (outputs : string) : Error + bool :=
  let lines := split LF outputs in
  if length lines =? 1 then inl (JsError (nth 0 lines EmptyString))
  else
    let line := nth 0 lines EmptyString in
    let tokens := split " " line in
    if negb (length tokens =? 11) then inl (JsError "Fail to parse KEYINFO output")
    else inr (String.eqb (nth 6 tokens EmptyString) "1").


(** *** Processes and connections

    [process.textSpawn] and the constructor of [AssuanClient] reach
    outside the program.  The environment decides what they give: [os]
    answers a spawn from all the spawns made so far (the last one is the
    one being answered), [connect] gives the client behind a socket
    path.  The world also keeps what the program did: the processes it
    spawned, the calls of every session it opened, the lines it logged. *)
Record Spawn : Type := mkSpawn {
  program : string;
  arguments : list string;
  input : string
}.

Record World (A : Type) : Type := mkWorld {
  os : list Spawn -> Error + string;
  connect : string -> A;
  spawned : list Spawn;
  sessions : list (list Event);
  output : list string
}.
Arguments mkWorld {A} _ _ _ _ _.
Arguments os {A} _ _.
Arguments connect {A} _ _.
Arguments spawned {A} _.
Arguments sessions {A} _.
Arguments output {A} _.

Definition lift {W T} (r : Error + T) : M W T := fun w => (r, w).

Definition SHA1_EMPTY_DIGEST : string := "da39a3ee5e6b4b0d3255bfef95601890afd80709".

Section Process.
Context {A : Type} `{AssuanClient A}.
(** [String.prototype.trim]; nothing stated below depends on it. *)
Variable trim : string -> string.

Definition textSpawn (prog : string) (args : list string) (inp : string)
  : M (World A) string :=
  fun w =>
    let calls := spawned w ++ [mkSpawn prog args inp] in
    (os w calls, mkWorld (os w) (connect w) calls (sessions w) (output w)).

(** [logger.log(message)] *)
Definition log (message : string) : M (World A) unit :=
  fun w =>
    (inr tt,
     mkWorld (os w) (connect w) (spawned w) (sessions w) (output w ++ [message])).

Definition getSocketPath : M (World A) string :=
  outputs <- textSpawn "gpgconf" ["--list-dir"; "agent-socket"] "" ;;
  ret (trim outputs).

(** [sign] on a new client for [socketPath]; the calls of the session
    are kept in the world. *)
Definition run_sign (socketPath keygrip passphrase sha1Hash : string)
  : M (World A) unit :=
  fun w =>
    let (r, c) := sign (connect w socketPath) keygrip passphrase sha1Hash in
    (r, mkWorld (os w) (connect w) (spawned w) (sessions w ++ [trace c]) (output w)).

Definition isKeyUnlocked (keygrip : string) : M (World A) bool :=
  outputs <- textSpawn "gpg-connect-agent" [] ("KEYINFO " +:+ keygrip) ;;
  lift (isKeyUnlocked_outputs outputs).

Definition getKeyInfo (keyId : string) : M (World A) GpgKeyInfo :=
  keyInfoRaw <- textSpawn "gpg"
    ["--fingerprint"; "--fingerprint"; "--with-keygrip"; "--with-colon"] "" ;;
  lift (getKeyInfo_search (parseGpgKey keyInfoRaw) keyId).

Definition isKeyIdUnlocked (keyId : string) : M (World A) bool :=
  keyInfo <- getKeyInfo keyId ;;
  isKeyUnlocked (keygrip keyInfo).

Definition unlockByKey (keygrip passphrase : string) : M (World A) unit :=
  socketPath <- getSocketPath ;;
  run_sign socketPath keygrip passphrase SHA1_EMPTY_DIGEST.
End Process.

End Gpg.

(** ** The key status manager of the extension *)

Module Extension.
Import Assuan Gpg.
Local Open Scope js_scope.

Record KeyStatusEvent : Type := mkKeyStatusEvent {
  keyId : string;
  isLocked : bool
}.

(** [KeyStatusEvent.equal] *)
Definition equal (left right : KeyStatusEvent) : bool :=
  String.eqb (keyId left) (keyId right) && Bool.eqb (isLocked left) (isLocked right).

(** The private fields of [KeyStatusManager]; the update functions act on
    the user interface [U]. *)
Record KeyStatusManager (U : Type) : Type := mkKeyStatusManager {
  activateFolder : option string;
  lastEvent : option KeyStatusEvent;
  keyOfFolders : gmap string GpgKeyInfo;
  disposed : bool;
  updateFunctions : list (KeyStatusEvent -> U -> U);
  syncInterval : nat
}.
Arguments mkKeyStatusManager {U} _ _ _ _ _ _.
Arguments activateFolder {U} _.
Arguments lastEvent {U} _.
Arguments keyOfFolders {U} _.
Arguments disposed {U} _.
Arguments updateFunctions {U} _.
Arguments syncInterval {U} _.

(** The manager, the user interface its update functions draw on, and the
    world outside. *)
Record Ext (A U : Type) : Type := mkExt {
  manager : KeyStatusManager U;
  ui : U;
  world : World A
}.
Arguments mkExt {A U} _ _ _.
Arguments manager {A U} _.
Arguments ui {A U} _.
Arguments world {A U} _.

(** [err.message] *)
Definition message (e : Error) : string :=
  match e with
  | JsError m => m
  | UnexpectedResponse _ _ => "UnexpectedResponse"
  | ConnectionError => "ConnectionError"
  | IOError => "IOError"
  | EndOfStream => "EndOfStream"
  | ProtocolViolation => "ProtocolViolation"
  | SessionClosed => "SessionClosed"
  | ParseError => "ParseError"
  | InvalidRequest => "InvalidRequest"
  | NotAnError v => v
  end.

Definition show_bool (b : bool) : string := if b then "true" else "false".

Section Manager.
Context {A U : Type} `{AssuanClient A}.
Variable trim : string -> string.

(** A call into [indicator/gpg]. *)
Definition gpg {T} (m : M (World A) T) : M (Ext A U) T :=
  fun st =>
    let (r, w) := m (world st) in
    (r, mkExt (manager st) (ui st) w).

Definition logger_log (message : string) : M (Ext A U) unit :=
  gpg (log message).

Definition set_lastEvent (event : KeyStatusEvent) : M (Ext A U) unit :=
  fun st =>
    let m := manager st in
    (inr tt,
     mkExt (mkKeyStatusManager (activateFolder m) (Some event) (keyOfFolders m)
              (disposed m) (updateFunctions m) (syncInterval m))
       (ui st) (world st)).

Definition notifyUpdate (event : KeyStatusEvent) : M (Ext A U) unit :=
  logger_log ("New event, key: " +:+ keyId event +:+ ", is locked: "
              +:+ show_bool (isLocked event)) ;;;
  logger_log "Trigger status update functions" ;;;
  fun st =>
    (inr tt,
     mkExt (manager st)
       (fold_left (fun u update => update event u) (updateFunctions (manager st)) (ui st))
       (world st)).

Definition syncStatus : M (Ext A U) unit :=
  fun st =>
    match activateFolder (manager st) with
    | None | Some EmptyString => (inr tt, st)
    | Some folder =>
        match keyOfFolders (manager st) !! folder with
        | None => (inr tt, st)
        | Some keyInfo =>
            (newEvent <-
               try_catch
                 (isUnlocked <- gpg (isKeyUnlocked (keygrip keyInfo)) ;;
                  ret (Some (mkKeyStatusEvent (fingerprint keyInfo) (negb isUnlocked))))
                 (fun e =>
                    match e with
                    | NotAnError _ => throw e
                    | _ =>
                        logger_log ("Fail to check key status: " +:+ message e) ;;;
                        ret None
                    end) ;;
             fun st' =>
               match newEvent with
               | None => (inr tt, st')
               | Some event =>
                   match lastEvent (manager st') with
                   | None => (set_lastEvent event ;;; notifyUpdate event) st'
                   | Some last =>
                       if negb (equal event last)
                       then (set_lastEvent event ;;; notifyUpdate event) st'
                       else (inr tt, st')
                   end
               end) st
        end
    end.

Definition unlockCurrentKey (passphrase : string) : M (Ext A U) unit :=
  fun st =>
    match activateFolder (manager st) with
    | None => (inl (JsError "No active folder"), st)
    | Some folder =>
        match keyOfFolders (manager st) !! folder with
        | None => (inl (JsError "No key for current folder"), st)
        | Some theKey =>
            (syncStatus ;;;
             unlocked <- gpg (isKeyUnlocked (keygrip theKey)) ;;
             if unlocked
             then logger_log "Key is already unlocked, skip unlock request"
             else
               logger_log ("Try to unlock current key: " +:+ fingerprint theKey) ;;;
               gpg (unlockByKey trim (keygrip theKey) passphrase) ;;;
               syncStatus) st
        end
    end.
End Manager.

Section Folders.
Context {A U : Type} `{AssuanClient A}.
Variable trim : string -> string.
(** [git.isSigningActivated] and [git.getSigningKey]: the code of
    [indicator/git] is not among the sources, so the two calls are
    parameters: any computations on the world. *)
Variable git_isSigningActivated : string -> M (World A) bool.
Variable git_getSigningKey : string -> M (World A) string.

Definition set_activateFolder (folder : string) : M (Ext A U) unit :=
  fun st =>
    let m := manager st in
    (inr tt,
     mkExt (mkKeyStatusManager (Some folder) (lastEvent m) (keyOfFolders m)
              (disposed m) (updateFunctions m) (syncInterval m))
       (ui st) (world st)).

(** [this.#activateFolder === folder] *)
Definition is_folder (current : option string) (folder : string) : bool :=
  match current with
  | Some f => String.eqb f folder
  | None => false
  end.

Definition changeActivateFolder (folder : string) : M (Ext A U) unit :=
  fun st =>
    if is_folder (activateFolder (manager st)) folder then (inr tt, st)
    else
      (logger_log ("Change folder to " +:+ folder) ;;;
       set_activateFolder folder ;;;
       syncStatus) st.

Definition registerUpdateFunction (update : KeyStatusEvent -> U -> U)
  : M (Ext A U) unit :=
  logger_log "Got one update function" ;;;
  fun st =>
    let m := manager st in
    (inr tt,
     mkExt (mkKeyStatusManager (activateFolder m) (lastEvent m) (keyOfFolders m)
              (disposed m) (updateFunctions m ++ [update]) (syncInterval m))
       (ui st) (world st)).

(** [this.#keyOfFolders.set(folder, keyInfo)] *)
Definition set_keyOfFolder (folder : string) (keyInfo : GpgKeyInfo) : M (Ext A U) unit :=
  fun st =>
    let m := manager st in
    (inr tt,
     mkExt (mkKeyStatusManager (activateFolder m) (lastEvent m)
              (<[folder := keyInfo]> (keyOfFolders m))
              (disposed m) (updateFunctions m) (syncInterval m))
       (ui st) (world st)).

(** [updateFolder]; the lifting [gpg] serves for the calls into
    [indicator/git] as well. *)
Definition updateFolder (folder : string) : M (Ext A U) unit :=
  try_catch
    (shouldParseKey <- gpg (git_isSigningActivated folder) ;;
     if negb shouldParseKey then ret tt
     else
       keyId <- gpg (git_getSigningKey folder) ;;
       keyInfo <- gpg (getKeyInfo keyId) ;;
       logger_log ("Find key " +:+ fingerprint keyInfo +:+ " for folder " +:+ folder) ;;;
       set_keyOfFolder folder keyInfo)
    (fun _ => logger_log ("Can not found key for folder: " +:+ folder)).

(** What the window has shown to the user. *)
Inductive Message : Type :=
| InformationMessage (text : string)
| ErrorMessage (text : string).

Definition in_manager {T} (m : M (Ext A U) T) : M (Ext A U * list Message) T :=
  fun s =>
    let (r, st) := m (fst s) in
    (r, (st, snd s)).

Definition show (msg : Message) : M (Ext A U * list Message) unit :=
  fun s => (inr tt, (fst s, snd s ++ [msg])).

(** The command [gpgIndicator.unlockCurrentKey] registered by [activate];
    [answer] is what the input box gave, nothing when it was dismissed. *)
Definition unlockCurrentKey_command (answer : option string)
  : M (Ext A U * list Message) unit :=
  match answer with
  | None => ret tt
  | Some passphrase =>
      try_catch
        (in_manager (unlockCurrentKey trim passphrase) ;;;
         show (InformationMessage "Key unlocked."))
        (fun e =>
           match e with
           | NotAnError _ => ret tt
           | _ => show (ErrorMessage ("Failed to unlock: " +:+ message e))
           end)
  end.
End Folders.

(** The status bar item of [activate], as far as the update function
    registered there writes it. *)
Record StatusBarItem : Type := mkStatusBarItem {
  item_text : string;
  item_backgroundColor : option string;
  item_visible : bool
}.

Fixpoint drop (n : nat) (s : string) : string :=
  match n, s with
  | S n', String _ s' => drop n' s'
  | _, _ => s
  end.

(** [s.substr(start)]: a negative start counts from the end and stops at
    the beginning; a start behind the end gives the empty text. *)
Definition substr (start : Z) (s : string) : string :=
  let size := Z.of_nat (String.length s) in
  let from := if (start <? 0)%Z then Z.max (size + start) 0 else Z.min start size in
  drop (Z.to_nat from) s.

(** The update function that [activate] registers. *)
Definition updateStatusItem (event : KeyStatusEvent) (item : StatusBarItem)
  : StatusBarItem :=
  let shortId := substr (Z.of_nat (String.length (keyId event)) - 16) (keyId event) in
  let lockIcon := if isLocked event then "lock" else "unlock" in
  let status := "$(" +:+ lockIcon +:+ ") " +:+ shortId in
  let backgroundColor :=
    if isLocked event then Some "statusBarItem.warningBackground" else None in
  mkStatusBarItem status backgroundColor true.

End Extension.

Import Assuan Gpg.

(** * Vocabulary of the statements *)

(** ** The signing handshake *)

Section Handshake.
Variables keygrip passphrase sha1Hash : string.

Definition OPTION : Request := Command "OPTION" (Some "pinentry-mode loopback").
Definition SIGKEY : Request := Command "SIGKEY" (Some keygrip).
Definition SETHASH : Request := Command "SETHASH" (Some ("--hash=sha1 " +:+ sha1Hash)).
Definition PKSIGN : Request := Command "PKSIGN" None.
Definition END : Request := Command "END" None.
Definition BYE : Request := Command "BYE" None.
Definition PASSPHRASE : Request :=
  fromRawData (mkRequestRawData (list_byte_of_string passphrase)).

(** The calls of a handshake up to the answer to PKSIGN. *)
Definition opening (g o k h : string) : list Event :=
  [EInitialize None; EReceive (inr (Ok g));
   ESend OPTION None; EReceive (inr (Ok o));
   ESend SIGKEY None; EReceive (inr (Ok k));
   ESend SETHASH None; EReceive (inr (Ok h));
   ESend PKSIGN None].

(** The handshake against a scripted peer. *)
Definition run (script : list Response) : (Error + unit) * Conn (list Response) :=
  sign (H := scripted) script keygrip passphrase sha1Hash.
End Handshake.

(** A computation on a connection that makes calls but never disposes. *)
Definition quiet {A T : Type} (m : M (Conn A) T) : Prop :=
  forall c, exists t, trace (snd (m c)) = trace c ++ t /\ disposals t = 0.

(** The wire lines of a peer whose key is locked. *)
Definition locked_lines : list (list byte) :=
  map Codec.bytes
    ["OK Pleased to meet you"; "OK"; "OK"; "OK"; "S INQUIRE_MAXLEN 255";
     "INQUIRE PASSPHRASE"; "D signature"; "OK"; "OK closing connection"].

(** ** The codec *)

(** A whole payload escaped, with no line structure. *)
Definition escapeAll (bs : list byte) : list byte := concat (map Codec.escape bs).

(** Whether a text starts with two hexadecimal digits. *)
Definition hex_pair (l : list byte) : bool :=
  match l with
  | hi :: lo :: _ => bool_decide (is_Some (Codec.unhex hi)) && bool_decide (is_Some (Codec.unhex lo))
  | _ => false
  end.

(** ** The key catalog and the status query *)

(** [sub] occurs in [s], character for character. *)
Definition contains (s sub : string) : Prop :=
  exists pre post : string, s = pre +:+ sub +:+ post.

(** A text without the character [c]. *)
Fixpoint without (c : ascii) (s : string) : bool :=
  match s with
  | EmptyString => true
  | String a s' => negb (Ascii.eqb a c) && without c s'
  end.

(** Tokens of a status line: no blank and no line feed inside a token. *)
Definition token (t : string) : bool := without " " t && without LF t.

(** The error of [isKeyUnlocked] for a status line it cannot read. *)
Definition KEYINFO_ParseError : Error := JsError "Fail to parse KEYINFO output".

(** The error of [getKeyInfo] when no key matches. *)
Definition KeyNotFound (keyId : string) : Error :=
  JsError ("Cannot find key with ID: " +:+ keyId).

(** ** Key listings *)

(** Every character of [s] is in the class [p]. *)
Fixpoint all (p : ascii -> bool) (s : string) : bool :=
  match s with
  | EmptyString => true
  | String c s' => p c && all p s'
  end.

(** [s] does not go on with a character of the class [p]. *)
Definition stops (p : ascii -> bool) (s : string) : bool :=
  match s with
  | EmptyString => true
  | String c _ => negb (p c)
  end.

(** The text of one field of a record: no colon and no line feed. *)
Definition field_text (f : string) : bool := all not_colon f && without LF f.

(** Fields, each closed by its colon. *)
Fixpoint join_fields (fs : list string) : string :=
  match fs with
  | [] => EmptyString
  | f :: fs' => f +:+ ":" +:+ join_fields fs'
  end.

(** One block of a listing: the key record ([pub] or [sub], ten fields,
    the capability field and what follows on the line), the fingerprint
    record and the keygrip record. *)
Record Block : Type := mkBlock {
  kind : string;
  key_fields : list string;
  flags : string;
  flags_more : string;
  key_tail : list string;
  fpr_tag : string;
  fpr_fields : list string;
  fpr : string;
  fpr_tail : list string;
  grp_fields : list string;
  grp : string
}.

Definition block_text (b : Block) : string :=
  kind b +:+ ":" +:+ join_fields (key_fields b) +:+
  flags b +:+ flags_more b +:+ ":" +:+ join_fields (key_tail b) +:+ nl +:+
  fpr_tag b +:+ ":" +:+ join_fields (fpr_fields b) +:+
  fpr b +:+ ":" +:+ join_fields (fpr_tail b) +:+ nl +:+
  "grp:" +:+ join_fields (grp_fields b) +:+ grp b +:+ ":".

(** A well-formed block: the record names, the number of fields before the
    capabilities, the fingerprint and the keygrip, and the characters of
    each part are those of the listing format. *)
Definition well_formed (b : Block) : bool :=
  (String.eqb (kind b) "pub" || String.eqb (kind b) "sub") &&
  (length (key_fields b) =? 10) && forallb field_text (key_fields b) &&
  negb (String.eqb (flags b) EmptyString) && all capability (flags b) &&
  all word (flags_more b) && stops capability (flags_more b) &&
  forallb field_text (key_tail b) &&
  (String.eqb (fpr_tag b) "fpr" || String.eqb (fpr_tag b) "fp2") &&
  (length (fpr_fields b) =? 8) && forallb field_text (fpr_fields b) &&
  all word (fpr b) && forallb field_text (fpr_tail b) &&
  (length (grp_fields b) =? 8) && forallb field_text (grp_fields b) &&
  all word (grp b).

(** The key record that a block describes. *)
Definition record_of (b : Block) : GpgKeyInfo :=
  mkGpgKeyInfo (kind b) (flags b) (fpr b) (grp b).

(** [s] starts like a key record. *)
Definition starts_key (s : string) : bool :=
  match strip "pub:" s, strip "sub:" s with
  | None, None => false
  | _, _ => true
  end.

(** Text between blocks: at none of its positions does the text, read on
    into [next], start like a key record. *)
Fixpoint clean (junk next : string) : bool :=
  match junk with
  | EmptyString => true
  | String c junk' => negb (starts_key (junk +:+ next)) && clean junk' next
  end.

(** The capture array after a block has been matched. *)
Definition captures_of (b : Block) : gmap nat string :=
  <[4 := grp b]> (<[3 := fpr b]> (<[2 := flags b]> (<[1 := kind b]> ∅))).

(** A listing of a primary key and a subkey, with a user-id record between
    the blocks. *)
Definition sample_pub : Block :=
  mkBlock "pub" ["u"; "4096"; "1"; "AAAAAAAAAAAAAAAA"; "1590000000"; ""; ""; "u"; ""; ""]
    "sc" "ESC" [""; ""; ""; ""; ""; "23"; ""; "0"]
    "fpr" [""; ""; ""; ""; ""; ""; ""; ""] "0123456789ABCDEF0123456789ABCDEF01234567" []
    [""; ""; ""; ""; ""; ""; ""; ""] "AAAABBBBCCCCDDDDEEEEFFFF0000111122223333".

Definition sample_sub : Block :=
  mkBlock "sub" ["u"; "4096"; "1"; "BBBBBBBBBBBBBBBB"; "1590000000"; ""; ""; ""; ""; ""]
    "e" "" [""; ""; ""; ""; ""; "23"]
    "fpr" [""; ""; ""; ""; ""; ""; ""; ""] "89ABCDEF0123456789ABCDEF0123456789ABCDEF" []
    [""; ""; ""; ""; ""; ""; ""; ""] "4444555566667777888899990000AAAABBBBCCCC".

Definition sample_uid : string :=
  nl +:+ "uid:u::::1590000000::HASH::Name <mail@example.org>::::::::::0:" +:+ nl.

(** A matching step hands to what follows a text that is no longer than
    the text it was given. *)
Definition shrinking
  (step : string -> gmap nat string ->
          (string -> gmap nat string -> option (gmap nat string * string)) ->
          option (gmap nat string * string)) : Prop :=
  forall s caps k res,
    step s caps k = Some res ->
    exists s' caps', String.length s' <= String.length s /\ k s' caps' = Some res.

(** From [c] to [c'] the raw-data requests made carry exactly the
    payloads [l], in order. *)
Definition emits {A : Type} (l : list (list byte)) (c c' : Conn A) : Prop :=
  exists t, trace c' = trace c ++ t /\ payloads (sent t) = l.

(** No raw-data request, or one request that carries [p]. *)
Definition emits_at_most {A : Type} (p : list byte) (c c' : Conn A) : Prop :=
  emits [] c c' \/ emits [p] c c'.

(** ** The unlock command *)

(** Every run of [m] takes a world to one related to it by [R]. *)
Definition steps {W T : Type} (R : W -> W -> Prop) (m : M W T) : Prop :=
  forall w, R w (snd (m w)).

(** A status query: [gpg-connect-agent] fed one [KEYINFO] line. *)
Definition status_query (sp : Spawn) : bool :=
  String.eqb (program sp) "gpg-connect-agent" &&
  match arguments sp with [] => true | _ => false end &&
  match strip "KEYINFO " (input sp) with Some _ => true | None => false end.

(** From [w] to [w'] no session was opened and the only processes spawned
    were status queries. *)
Definition only_queries {A : Type} (w w' : World A) : Prop :=
  sessions w' = sessions w /\
  exists new, spawned w' = spawned w ++ new /\ forallb status_query new = true.

Definition only_queries_ext {A U : Type} (st st' : Extension.Ext A U) : Prop :=
  only_queries (Extension.world st) (Extension.world st').

(** An environment for the unlock command: the agent reports the key as
    unlocked on every query. *)
Definition unlocked_os (calls : list Spawn) : Error + string :=
  inr ("S KEYINFO CB18328AD05158F97CC8F33682F7AD291F52CB08 D - - 1 P - - -" +:+ nl +:+
       "OK" +:+ nl).

Definition sample_key : GpgKeyInfo :=
  mkGpgKeyInfo "pub" "sc" "0123456789ABCDEF0123456789ABCDEF01234567"
    "CB18328AD05158F97CC8F33682F7AD291F52CB08".

Definition sample_ext : Extension.Ext (list Response) unit :=
  Extension.mkExt
    (Extension.mkKeyStatusManager (Some "/repo") None {[ "/repo" := sample_key ]}
       false [] 30)
    tt
    (mkWorld unlocked_os (fun _ => []) [] [] []).


(** ** Calls that reject *)

(** The error of a call that rejected. *)
Definition rejection (ev : Event) : option Error :=
  match ev with
  | EInitialize (Some e) | ESend _ (Some e) | EReceive (inl e) => Some e
  | _ => None
  end.

Definition is_dispose (ev : Event) : bool :=
  match ev with
  | EDispose => true
  | _ => false
  end.

(** After a call that rejected nothing is called but [dispose]. *)
Fixpoint fail_stop (t : list Event) : bool :=
  match t with
  | [] => true
  | ev :: t' =>
      match rejection ev with
      | Some _ => forallb is_dispose t'
      | None => fail_stop t'
      end
  end.

(** The error of the first call that rejected. *)
Fixpoint first_rejection (t : list Event) : option Error :=
  match t with
  | [] => None
  | ev :: t' =>
      match rejection ev with
      | Some e => Some e
      | None => first_rejection t'
      end
  end.

(** ** Key listings of any length *)

(** An expression without capture groups. *)
Fixpoint plain (r : regex) : bool :=
  match r with
  | Lit _ | Class _ => true
  | Seq r1 r2 | Alt r1 r2 => plain r1 && plain r2
  | Star _ r1 | Repeat _ r1 => plain r1
  | Group _ _ => false
  end.

(** A matching step that hands the captures it was given to what follows. *)
Definition transparent
  (step : string -> gmap nat string ->
          (string -> gmap nat string -> option (gmap nat string * string)) ->
          option (gmap nat string * string)) : Prop :=
  forall s caps k res, step s caps k = Some res -> exists s', k s' caps = Some res.

(** What every record that [parseGpgKey] returns looks like. *)
Definition shape_ok (r : GpgKeyInfo) : bool :=
  (String.eqb (type r) "pub" || String.eqb (type r) "sub") &&
  negb (String.eqb (capabilities r) EmptyString) &&
  all capability (capabilities r) &&
  all word (fingerprint r) && all word (keygrip r).

(** A listing: blocks, each with the text in front of it, and the text
    behind the last block. *)
Fixpoint listing (items : list (string * Block)) (post : string) : string :=
  match items with
  | [] => post
  | (junk, b) :: items' => junk +:+ block_text b +:+ listing items' post
  end.

Fixpoint listing_ok (items : list (string * Block)) (post : string) : bool :=
  match items with
  | [] => clean post EmptyString
  | (junk, b) :: items' =>
      well_formed b && clean junk (block_text b +:+ listing items' post) &&
      listing_ok items' post
  end.

(** ** Records between a key record and its fingerprint *)

(** The key record of a block, and its fingerprint and keygrip records. *)
Definition key_line (b : Block) : string :=
  kind b +:+ ":" +:+ join_fields (key_fields b) +:+
  flags b +:+ flags_more b +:+ ":" +:+ join_fields (key_tail b).

Definition fingerprint_lines (b : Block) : string :=
  nl +:+ fpr_tag b +:+ ":" +:+ join_fields (fpr_fields b) +:+
  fpr b +:+ ":" +:+ join_fields (fpr_tail b) +:+ nl +:+
  "grp:" +:+ join_fields (grp_fields b) +:+ grp b +:+ ":".

(** Other records, one per line, each given by its fields. *)
Fixpoint records (lines : list (list string)) : string :=
  match lines with
  | [] => EmptyString
  | fs :: lines' => nl +:+ join_fields fs +:+ records lines'
  end.

(** A record that is not a fingerprint record: it has a name, the name is
    neither [fpr] nor [fp2], and its fields are field texts. *)
Definition other_record (fs : list string) : bool :=
  match fs with
  | [] => false
  | name :: _ =>
      negb (String.eqb name "fpr") && negb (String.eqb name "fp2") &&
      forallb field_text fs
  end.

(** [s] starts like a fingerprint record on a new line. *)
Definition starts_fpr (s : string) : bool :=
  match strip (nl +:+ "fpr:") s, strip (nl +:+ "fp2:") s with
  | None, None => false
  | _, _ => true
  end.

(** Colon-closed pieces of text in front of [rest], none of which starts
    like a fingerprint record on a new line. *)
Fixpoint passable (segs : list string) (rest : string) : bool :=
  match segs with
  | [] => true
  | t :: segs' =>
      negb (starts_fpr (join_fields segs +:+ rest)) && all not_colon t &&
      passable segs' rest
  end.

(** The pieces between two colons of some records: the line feed in front
    of a record belongs to the piece that holds its name. *)
Fixpoint pieces (lines : list (list string)) : list string :=
  match lines with
  | [] => []
  | [] :: lines' => pieces lines'
  | (name :: fs) :: lines' => (nl +:+ name) :: fs ++ pieces lines'
  end.

(** A key record of a subkey with no fingerprint record of its own, as a
    record between a primary key and a fingerprint. *)
Definition sample_fields : list string :=
  ["sub"; "u"; "4096"; "1"; "BBBBBBBBBBBBBBBB"; "1590000000"; ""; ""; ""; ""; "";
   "e"; ""; ""; ""; ""; ""; "23"].

(** The call that [getKeyInfo] makes. *)
Definition gpg_listing_call : Spawn :=
  mkSpawn "gpg" ["--fingerprint"; "--fingerprint"; "--with-keygrip"; "--with-colon"]
    EmptyString.

(** The world after one more process was spawned. *)
Definition after_spawn {A : Type} (call : Spawn) (w : World A) : World A :=
  mkWorld (os w) (connect w) (spawned w ++ [call]) (sessions w) (output w).

(** A listing of three keys. *)
Definition sample_items : list (string * Block) :=
  [(EmptyString, sample_pub); (sample_uid, sample_sub); (nl, sample_pub)].

(** A world in which the listing command prints [sample_items]. *)
Definition listing_world : World (list Response) :=
  mkWorld (fun _ => inr (listing sample_items nl)) (fun _ => []) [] [] [].

(** A primary key whose own fingerprint records are missing, in front of
    the fingerprint and keygrip records of the subkey. *)
Definition sample_mixed : Block :=
  mkBlock "pub" (key_fields sample_pub) "sc" "ESC" (key_tail sample_pub)
    "fpr" (fpr_fields sample_sub) (fpr sample_sub) (fpr_tail sample_sub)
    (grp_fields sample_sub) (grp sample_sub).

(** ** Status refreshes *)

(** The status query for a keygrip. *)
Definition keyinfo_call (keygrip : string) : Spawn :=
  mkSpawn "gpg-connect-agent" [] ("KEYINFO " +:+ keygrip).

(** The call that asks for the socket of the agent. *)
Definition socket_call : Spawn :=
  mkSpawn "gpgconf" ["--list-dir"; "agent-socket"] EmptyString.

(** The event that an answer of the agent stands for. *)
Definition event_of (key : GpgKeyInfo) (unlocked : bool) : Extension.KeyStatusEvent :=
  Extension.mkKeyStatusEvent (fingerprint key) (negb unlocked).

(** [folder] is the active folder and [key] is the key kept for it. *)
Definition watching {A U : Type} (st : Extension.Ext A U) (folder : string)
  (key : GpgKeyInfo) : Prop :=
  Extension.activateFolder (Extension.manager st) = Some folder /\
  folder <> EmptyString /\
  Extension.keyOfFolders (Extension.manager st) !! folder = Some key.

(** The agent answers the next status query for [key] with a status line
    that reads as [unlocked]. *)
Definition answers {A : Type} (w : World A) (key : GpgKeyInfo) (unlocked : bool) : Prop :=
  exists outputs,
    os w (spawned w ++ [keyinfo_call (keygrip key)]) = inr outputs /\
    isKeyUnlocked_outputs outputs = inr unlocked.

(** The two lines that a notification writes to the log. *)
Definition notice (event : Extension.KeyStatusEvent) : list string :=
  ["New event, key: " +:+ Extension.keyId event +:+ ", is locked: "
     +:+ Extension.show_bool (Extension.isLocked event);
   "Trigger status update functions"].

(** Every field of the manager but the last event is the same. *)
Definition same_settings {U : Type} (m m' : Extension.KeyStatusManager U) : Prop :=
  Extension.activateFolder m' = Extension.activateFolder m /\
  Extension.keyOfFolders m' = Extension.keyOfFolders m /\
  Extension.disposed m' = Extension.disposed m /\
  Extension.updateFunctions m' = Extension.updateFunctions m /\
  Extension.syncInterval m' = Extension.syncInterval m.

(** [sample_ext] in another environment. *)
Definition sample_ext_on (answer : list Spawn -> Error + string)
  : Extension.Ext (list Response) unit :=
  Extension.mkExt (Extension.manager sample_ext) tt
    (mkWorld answer (fun _ => []) [] [] []).

(** ** Sessions of the unlock command *)

(** A session in which the passphrase went out at most once, as the only
    raw data, and which was closed unless it never opened. *)
Definition unlock_session (passphrase : string) (t : list Event) : Prop :=
  (payloads (sent t) = [] \/ payloads (sent t) = [list_byte_of_string passphrase]) /\
  (disposals t = 1 \/ exists e, t = [EInitialize (Some e)]).

(** From [w] to [w'] at most one session was opened, and it is an
    [unlock_session]. *)
Definition at_most_one_session {A : Type} (passphrase : string) (w w' : World A) : Prop :=
  sessions w' = sessions w \/
  exists t, sessions w' = sessions w ++ [t] /\ unlock_session passphrase t.

(** The new event is the last one over again. *)
Definition unchanged (last : option Extension.KeyStatusEvent)
  (event : Extension.KeyStatusEvent) : bool :=
  match last with
  | Some l => Extension.equal event l
  | None => false
  end.

(** [sample_ext] after the agent was seen to report the key as unlocked. *)
Definition sample_ext_seen : Extension.Ext (list Response) unit :=
  Extension.mkExt
    (Extension.mkKeyStatusManager (Some "/repo") (Some (event_of sample_key true))
       {[ "/repo" := sample_key ]} false [] 30)
    tt
    (mkWorld unlocked_os (fun _ => []) [] [] []).

(** An environment in which the agent tool cannot be started. *)
Definition failing_os (calls : list Spawn) : Error + string :=
  inl (JsError "spawn gpg-connect-agent ENOENT").

(** An environment in which the spawn is rejected with a plain text. *)
Definition cancelling_os (calls : list Spawn) : Error + string :=
  inl (NotAnError "cancelled").

(** ** Folders and the status bar *)

(** A manager that knows no folder yet, where the listing command prints
    [sample_items]. *)
Definition sample_ext_empty : Extension.Ext (list Response) unit :=
  Extension.mkExt (Extension.mkKeyStatusManager None None ∅ false [] 30) tt listing_world.

(** A repository in which commits are signed with the key [89ABCDEF]. *)
Definition sample_isSigningActivated (folder : string) : M (World (list Response)) bool :=
  ret true.

Definition sample_getSigningKey (folder : string) : M (World (list Response)) string :=
  ret "89ABCDEF".

(** The length of the identifier shown for a key identifier of [n]
    characters. *)
Definition shown_length (n : nat) : nat :=
  if 16 <=? n then 16 else Nat.min n (16 - n).

(** What the unlock command shows for the outcome of the unlock. *)
Definition report (r : Error + unit) : list Extension.Message :=
  match r with
  | inr _ => [Extension.InformationMessage "Key unlocked."]
  | inl (NotAnError _) => []
  | inl e => [Extension.ErrorMessage ("Failed to unlock: " +:+ Extension.message e)]
  end.

(** * The signing handshake *)

Section SignOnScript.
Variables keygrip passphrase sha1Hash : string.

Local Abbreviation OPTION := OPTION.
Local Abbreviation SIGKEY := (SIGKEY keygrip).
Local Abbreviation SETHASH := (SETHASH sha1Hash).
Local Abbreviation PASSPHRASE := (PASSPHRASE passphrase).
Local Abbreviation opening := (opening keygrip sha1Hash).
Local Abbreviation run := (run keygrip passphrase sha1Hash).

(** C1.  A peer that answers the greeting, OPTION, SIGKEY and SETHASH with
    Ok and PKSIGN with Information INQUIRE_MAXLEN and then Inquire
    PASSPHRASE is sent exactly one raw-data request, carrying the bytes of
    the passphrase, and END right after it, whatever the peer does next.
    When the peer goes on with the signature (RawData), Ok, and Ok in
    answer to BYE, the handshake reads the signature and the Ok, sends
    BYE, disposes of the client and returns without error. *)
Theorem sign_locked_key (g o k h maxlen : string) :
  (forall rest : list Response,
      let t := trace (snd (run ([Ok g; Ok o; Ok k; Ok h;
                                 Information "INQUIRE_MAXLEN" maxlen;
                                 Inquire "PASSPHRASE"] ++ rest))) in
      payloads (sent t) = [list_byte_of_string passphrase] /\
      exists more,
        sent t = [OPTION; SIGKEY; SETHASH; PKSIGN; PASSPHRASE; END] ++ more /\
        payloads more = []) /\
  (forall (signature : list byte) (a b : string) (rest : list Response),
      run ([Ok g; Ok o; Ok k; Ok h;
            Information "INQUIRE_MAXLEN" maxlen; Inquire "PASSPHRASE";
            RawData signature; Ok a; Ok b] ++ rest) =
      (inr tt,
       mkConn rest
         (opening g o k h ++
          [EReceive (inr (Information "INQUIRE_MAXLEN" maxlen));
           EReceive (inr (Inquire "PASSPHRASE"));
           ESend PASSPHRASE None; ESend END None;
           EReceive (inr (RawData signature)); EReceive (inr (Ok a));
           ESend BYE None; EReceive (inr (Ok b));
           EDispose]))).
Proof.
  split.
  - intros rest t; subst t.
    destruct rest as [|[] [|[] [|[] rest]]];
      (split; [reflexivity | eexists; split; reflexivity]).
  - intros; reflexivity.
Qed.

(** C2.  A peer that answers the greeting, OPTION, SIGKEY and SETHASH with
    Ok and PKSIGN with RawData and then Ok is sent OPTION, SIGKEY,
    SETHASH, PKSIGN and BYE and nothing else: no raw-data request and no
    END, whatever the peer does next.  With Ok in answer to BYE the
    handshake disposes of the client and returns without error. *)
Theorem sign_unlocked_key (g o k h a : string) (signature : list byte) :
  (forall rest : list Response,
      let t := trace (snd (run ([Ok g; Ok o; Ok k; Ok h;
                                 RawData signature; Ok a] ++ rest))) in
      sent t = [OPTION; SIGKEY; SETHASH; PKSIGN; BYE] /\
      payloads (sent t) = [] /\
      ~ In "END" (commands (sent t))) /\
  (forall (b : string) (rest : list Response),
      run ([Ok g; Ok o; Ok k; Ok h; RawData signature; Ok a; Ok b] ++ rest) =
      (inr tt,
       mkConn rest
         (opening g o k h ++
          [EReceive (inr (RawData signature)); EReceive (inr (Ok a));
           ESend BYE None; EReceive (inr (Ok b));
           EDispose]))).
Proof.
  split.
  - intros rest t; subst t.
    assert (E : sent (trace (snd (run ([Ok g; Ok o; Ok k; Ok h;
                                        RawData signature; Ok a] ++ rest)))) =
                [OPTION; SIGKEY; SETHASH; PKSIGN; BYE])
      by (destruct rest as [|[] rest]; reflexivity).
    rewrite E. split; [reflexivity|]. split; [reflexivity|].
    cbn. intros [F|[F|[F|[F|[F|[]]]]]]; discriminate F.
  - intros; reflexivity.
Qed.
End SignOnScript.

(** ** Disposal *)

Section Disposal.
Context {A : Type} `{AssuanClient A}.

Lemma quiet_ret {T} (x : T) : quiet (A := A) (ret x).
Proof. intros c. exists []. cbn. rewrite app_nil_r. auto. Qed.

Lemma quiet_throw {T} (e : Error) : quiet (A := A) (T := T) (throw e).
Proof. intros c. exists []. cbn. rewrite app_nil_r. auto. Qed.

Lemma quiet_bind {T V} (m : M (Conn A) T) (k : T -> M (Conn A) V) :
  quiet m -> (forall x, quiet (k x)) -> quiet (bind m k).
Proof.
  intros Hm Hk c. unfold bind.
  destruct (Hm c) as [t1 [E1 D1]].
  destruct (m c) as [[e|x] c1]; cbn in *.
  - exists t1. auto.
  - destruct (Hk x c1) as [t2 [E2 D2]].
    exists (t1 ++ t2). rewrite E2, E1, app_assoc. split; [reflexivity|].
    clear - D1 D2. induction t1 as [|[] t1 IH]; cbn in *; auto; discriminate.
Qed.

Lemma quiet_checkType (r : Response) (ty : ResponseType) :
  quiet (A := A) (checkType r ty).
Proof.
  unfold checkType. destruct (ResponseType_eqb _ _);
    [apply quiet_ret | apply quiet_throw].
Qed.

Lemma quiet_send (req : Request) : quiet (agent_sendRequest req).
Proof.
  intros c. unfold agent_sendRequest.
  destruct (sendRequest req (agent c)) as [r a]. cbn. eexists; split; reflexivity.
Qed.

Lemma quiet_receive : quiet agent_receiveResponse.
Proof.
  intros c. unfold agent_receiveResponse.
  destruct (receiveResponse (agent c)) as [r a]. cbn. eexists; split; reflexivity.
Qed.

Create HintDb quiet.
Hint Resolve quiet_ret quiet_throw quiet_checkType quiet_send quiet_receive : quiet.

Ltac quiet_steps :=
  repeat (apply quiet_bind; [solve [auto with quiet] | intros]).

Lemma quiet_sign_script (keygrip passphrase sha1Hash : string) :
  quiet (sign_script keygrip passphrase sha1Hash).
Proof.
  unfold sign_script. quiet_steps.
  apply quiet_bind.
  - destruct (getType _); auto with quiet; quiet_steps; auto with quiet.
  - intros. quiet_steps; auto with quiet.
Qed.

Lemma disposals_app (t1 t2 : list Event) :
  disposals (t1 ++ t2) = disposals t1 + disposals t2.
Proof. induction t1 as [|[] t1 IH]; cbn; auto. Qed.

(** C4, as the code has it.  When [initialize] succeeds, whatever happens
    in the script, the calls on the client end with the one and only
    [dispose], made before [sign] returns its result or its error, and the
    outcome is that of the script.  When [initialize] itself rejects,
    [sign] returns that error and the client is not disposed. *)
Theorem sign_disposes_once (client : A) (keygrip passphrase sha1Hash : string) :
  let r := sign client keygrip passphrase sha1Hash in
  match fst (initialize client) with
  | None =>
      (exists t, trace (snd r) = EInitialize None :: t ++ [EDispose] /\
                 disposals t = 0) /\
      disposals (trace (snd r)) = 1 /\
      fst r = fst (sign_script keygrip passphrase sha1Hash
                     (mkConn (snd (initialize client)) [EInitialize None]))
  | Some e =>
      r = (inl e, mkConn (snd (initialize client)) [EInitialize (Some e)]) /\
      disposals (trace (snd r)) = 0
  end.
Proof.
  intros r. subst r. unfold sign, bind, agent_initialize, try_finally. cbn.
  destruct (initialize client) as [[e|] a]; cbn.
  - split; reflexivity.
  - destruct (quiet_sign_script keygrip passphrase sha1Hash
                (mkConn a [EInitialize None])) as [t [E D]].
    destruct (sign_script keygrip passphrase sha1Hash (mkConn a [EInitialize None]))
      as [res c]. cbn in *.
    rewrite E. cbn. split; [|split].
    + exists t. auto.
    + rewrite disposals_app. cbn. lia.
    + reflexivity.
Qed.
End Disposal.

Lemma sign_disposes_once_witness :
  let r := sign (H := scripted) [Ok "Pleased to meet you"; Err 67109139 "Bad Passphrase"]
             "CB18328AD05158F97CC8F33682F7AD291F52CB08" "secret" SHA1_EMPTY_DIGEST in
  fst r = inl (UnexpectedResponse ok err) /\
  disposals (trace (snd r)) = 1 /\
  exists t, trace (snd r) = EInitialize None :: t ++ [EDispose] /\ disposals t = 0.
Proof.
  pose proof (sign_disposes_once (H := scripted)
                [Ok "Pleased to meet you"; Err 67109139 "Bad Passphrase"]
                "CB18328AD05158F97CC8F33682F7AD291F52CB08" "secret" SHA1_EMPTY_DIGEST)
    as [Hlast [Hone _]].
  split; [reflexivity|]. split; [exact Hone | exact Hlast].
Defined.

(** C4, as stated, fails where the endpoint cannot be reached: [sign]
    returns the connection error and [dispose] was never called. *)
Lemma sign_unreachable_not_disposed :
  let r := sign (H := unreachable) tt "CB18328AD05158F97CC8F33682F7AD291F52CB08"
             "secret" SHA1_EMPTY_DIGEST in
  fst r = inl ConnectionError /\
  trace (snd r) = [EInitialize (Some ConnectionError)] /\
  disposals (trace (snd r)) <> 1.
Proof. cbn. repeat split; discriminate. Qed.

(** * The passphrase on the wire *)

Section Passphrase.
Context {A : Type} `{AssuanClient A}.

Lemma steps_seq {W T V} (R1 R2 R3 : W -> W -> Prop) (m : M W T) (k : T -> M W V) :
  (forall a b c, R1 a b -> R2 b c -> R3 a c) ->
  (forall a b, R1 a b -> R3 a b) ->
  steps R1 m -> (forall x, steps R2 (k x)) -> steps R3 (bind m k).
Proof.
  intros Hcomp Hsub Hm Hk w. unfold bind. specialize (Hm w).
  destruct (m w) as [[e|x] w1]; cbn in *; [apply Hsub, Hm|].
  eapply Hcomp; [exact Hm | apply Hk].
Qed.

Lemma sent_app (t1 t2 : list Event) : sent (t1 ++ t2) = sent t1 ++ sent t2.
Proof. induction t1 as [|[] t1 IH]; cbn; rewrite ?IH; reflexivity. Qed.

Lemma payloads_app (l1 l2 : list Request) :
  payloads (l1 ++ l2) = payloads l1 ++ payloads l2.
Proof. induction l1 as [|[] l1 IH]; cbn; rewrite ?IH; reflexivity. Qed.

Lemma emits_refl (c : Conn A) : emits [] c c.
Proof. exists []. rewrite app_nil_r. auto. Qed.

Lemma emits_comp (l1 l2 : list (list byte)) (a b c : Conn A) :
  emits l1 a b -> emits l2 b c -> emits (l1 ++ l2) a c.
Proof.
  intros [t1 [E1 P1]] [t2 [E2 P2]]. exists (t1 ++ t2).
  rewrite E2, E1, app_assoc, sent_app, payloads_app, P1, P2. auto.
Qed.

Lemma silent_then (p : list byte) (a b c : Conn A) :
  emits [] a b -> emits_at_most p b c -> emits_at_most p a c.
Proof.
  intros E [E'|E']; [left | right]; apply (emits_comp _ _ _ _ _ E E').
Qed.

Lemma then_silent (p : list byte) (a b c : Conn A) :
  emits_at_most p a b -> emits [] b c -> emits_at_most p a c.
Proof.
  intros [E|E] E'; [left | right];
    pose proof (emits_comp _ _ _ _ _ E E') as G; rewrite ?app_nil_r in G; exact G.
Qed.

Lemma silent_ret {T} (x : T) : steps (emits (A := A) []) (ret x).
Proof. intros c. apply emits_refl. Qed.

Lemma silent_throw {T} (e : Error) : steps (emits (A := A) []) (T := T) (throw e).
Proof. intros c. apply emits_refl. Qed.

Lemma silent_checkType (r : Response) (ty : ResponseType) :
  steps (emits (A := A) []) (checkType r ty).
Proof.
  unfold checkType. destruct (ResponseType_eqb _ _);
    [apply silent_ret | apply silent_throw].
Qed.

Lemma silent_receive : steps (emits []) agent_receiveResponse.
Proof.
  intros c. unfold agent_receiveResponse.
  destruct (receiveResponse (agent c)) as [r a]. eexists. split; reflexivity.
Qed.

Lemma silent_command (name : string) (arg : option string) :
  steps (emits []) (agent_sendRequest (Command name arg)).
Proof.
  intros c. unfold agent_sendRequest.
  destruct (sendRequest _ (agent c)) as [r a]. eexists. split; reflexivity.
Qed.

Lemma one_payload (p : list byte) :
  steps (emits [p]) (agent_sendRequest (fromRawData (mkRequestRawData p))).
Proof.
  intros c. unfold agent_sendRequest.
  destruct (sendRequest _ (agent c)) as [r a]. eexists. split; reflexivity.
Qed.

Lemma silent_bind {T V} (m : M (Conn A) T) (k : T -> M (Conn A) V) :
  steps (emits []) m -> (forall x, steps (emits []) (k x)) -> steps (emits []) (bind m k).
Proof.
  apply steps_seq; [|auto]. intros a b c E1 E2. apply (emits_comp _ _ _ _ _ E1 E2).
Qed.

Lemma silent_then_bind (p : list byte) {T V} (m : M (Conn A) T) (k : T -> M (Conn A) V) :
  steps (emits []) m -> (forall x, steps (emits_at_most p) (k x)) ->
  steps (emits_at_most p) (bind m k).
Proof. apply steps_seq; [apply silent_then | intros a b E; left; exact E]. Qed.

Lemma then_silent_bind (p : list byte) {T V} (m : M (Conn A) T) (k : T -> M (Conn A) V) :
  steps (emits_at_most p) m -> (forall x, steps (emits []) (k x)) ->
  steps (emits_at_most p) (bind m k).
Proof. apply steps_seq; [apply then_silent | auto]. Qed.

Lemma silent_at_most (p : list byte) {T} (m : M (Conn A) T) :
  steps (emits []) m -> steps (emits_at_most p) m.
Proof. intros Hm c. left. apply Hm. Qed.

Create HintDb silent.
Hint Resolve silent_ret silent_throw silent_checkType silent_receive
  silent_command : silent.

Ltac silent_steps :=
  repeat (apply silent_bind; [solve [auto with silent] | intros]);
  auto with silent.

(** Whatever the client answers, the script makes at most one raw-data
    request, and the request carries the bytes of the passphrase. *)
Lemma sign_script_passphrase (keygrip passphrase sha1Hash : string) :
  steps (emits_at_most (list_byte_of_string passphrase))
    (sign_script keygrip passphrase sha1Hash).
Proof.
  unfold sign_script.
  repeat (apply silent_then_bind; [solve [auto with silent] | intros]).
  apply then_silent_bind; [|intros; silent_steps].
  destruct (getType _); try solve [apply silent_at_most; silent_steps].
  repeat (apply silent_then_bind; [solve [auto with silent] | intros]).
  apply then_silent_bind; [|intros; silent_steps].
  intros c. right. apply one_payload.
Qed.

End Passphrase.

(** * The session of the specification *)

Section SessionMachine.
Import Session.

Lemma sendRequest_state (req : Request) (s s' : Session) :
  Session.sendRequest req s = (None, s') ->
  state s = Ready /\ state s' = AwaitingResponse.
Proof.
  unfold Session.sendRequest. destruct (state s); try discriminate.
  destruct (Codec.encodeRequest req); try discriminate.
  destruct (writeLines _ _) as [[e|] t]; try discriminate.
  intros E. injection E as <-. auto.
Qed.

(** C5.  A request made while the session is awaiting a response is
    refused with [ProtocolViolation] and leaves the session as it was; in
    particular the second of two requests with no response received in
    between is refused. *)
Theorem sendRequest_twice_violates :
  (forall (s : Session) (req : Request),
      state s = AwaitingResponse ->
      Session.sendRequest req s = (Some ProtocolViolation, s)) /\
  (forall (s s1 : Session) (first second : Request),
      Session.sendRequest first s = (None, s1) ->
      Session.sendRequest second s1 = (Some ProtocolViolation, s1)).
Proof.
  assert (G : forall s req, state s = AwaitingResponse ->
                Session.sendRequest req s = (Some ProtocolViolation, s)).
  { intros s req E. unfold Session.sendRequest. rewrite E. reflexivity. }
  split; [exact G|].
  intros s s1 first second E. apply G.
  apply (sendRequest_state first s s1 E).
Qed.

(** A session that has read the greeting of its peer. *)
Lemma greeted_ready :
  state (snd (Session.receiveResponse (fresh locked_lines))) = Ready.
Proof. reflexivity. Qed.

Lemma sendRequest_twice_violates_witness :
  let s := snd (Session.receiveResponse (fresh locked_lines)) in
  let s1 := snd (Session.sendRequest PKSIGN s) in
  Session.sendRequest PKSIGN s = (None, s1) /\
  state s1 = AwaitingResponse /\
  Session.sendRequest END s1 = (Some ProtocolViolation, s1) /\
  Session.sendRequest BYE s1 = (Some ProtocolViolation, s1).
Proof.
  intros s s1.
  assert (E : Session.sendRequest PKSIGN s = (None, s1)) by reflexivity.
  split; [exact E|]. split; [reflexivity|]. split.
  - apply (proj2 sendRequest_twice_violates s s1 PKSIGN END E).
  - apply (proj1 sendRequest_twice_violates s1 BYE). reflexivity.
Defined.

(** The handshake over this session: the passphrase goes out in answer to
    the inquiry, and END, sent right after it with nothing received in
    between, is refused; the handshake fails where a peer that takes every
    request lets it complete. *)
Example sign_on_session_refuses_END :
  let r := sign (H := strict) (fresh locked_lines)
             "CB18328AD05158F97CC8F33682F7AD291F52CB08" "secret" SHA1_EMPTY_DIGEST in
  fst r = inl ProtocolViolation /\
  last (sent (trace (snd r))) = Some END /\
  outgoing (transport (agent (snd r))) =
    map Codec.bytes
      ["OPTION pinentry-mode loopback";
       "SIGKEY CB18328AD05158F97CC8F33682F7AD291F52CB08";
       "SETHASH --hash=sha1 da39a3ee5e6b4b0d3255bfef95601890afd80709";
       "PKSIGN"; "D secret"].
Proof. vm_compute. auto. Qed.
End SessionMachine.

(** * The codec of the specification *)

Section CodecRoundTrip.
Import Codec.

Lemma unescape_escape (b : byte) (rest out : list byte) :
  unescape rest = Some out -> unescape (escape b ++ rest) = Some (b :: out).
Proof. intros E. destruct b; cbn; rewrite E; reflexivity. Qed.

Lemma unescape_escapeAll (bs rest out : list byte) :
  unescape rest = Some out -> unescape (escapeAll bs ++ rest) = Some (bs ++ out).
Proof.
  intros E. induction bs as [|b bs IH]; [exact E|].
  unfold escapeAll in *. cbn [map concat]. rewrite <- app_assoc.
  apply unescape_escape, IH.
Qed.

Lemma escapeAll_snoc (bs : list byte) (b : byte) :
  escapeAll (bs ++ [b]) = escapeAll bs ++ escape b.
Proof.
  unfold escapeAll. rewrite map_app, concat_app. cbn. rewrite app_nil_r. reflexivity.
Qed.

Lemma decodeLine_data (l : list byte) :
  decodeLine (bytes "D " ++ l) =
  match unescape l with
  | Some out => inr (RawData out)
  | None => inl ParseError
  end.
Proof. reflexivity. Qed.

Lemma decodeData_pack (bs xs : list byte) (room : nat) :
  decodeData (map (app (bytes "D ")) (pack room (escapeAll xs) bs)) = inr (xs ++ bs).
Proof.
  revert xs room. induction bs as [|b bs IH]; intros xs room.
  - cbn [pack map decodeData]. rewrite decodeLine_data.
    rewrite <- (app_nil_r (escapeAll xs)).
    rewrite (unescape_escapeAll xs [] []) by reflexivity.
    rewrite !app_nil_r. reflexivity.
  - cbn [pack]. destruct (length (escape b) <=? room).
    + rewrite <- escapeAll_snoc, IH, <- app_assoc. reflexivity.
    + cbn [map decodeData]. rewrite decodeLine_data.
      rewrite <- (app_nil_r (escapeAll xs)).
      rewrite (unescape_escapeAll xs [] []) by reflexivity.
      replace (escape b) with (escapeAll [b])
        by (unfold escapeAll; cbn; apply app_nil_r).
      rewrite IH, app_nil_r. reflexivity.
Qed.

Lemma unescape_malformed (pre rest : list byte) :
  hex_pair rest = false -> unescape (pre ++ percent :: rest) = None.
Proof.
  intros Hbad.
  assert (G : forall n pre, length pre <= n -> unescape (pre ++ percent :: rest) = None).
  { induction n as [|n IH]; intros p Hlen.
    - destruct p; [|cbn in Hlen; lia]. cbn.
      destruct rest as [|hi [|lo rest']]; try reflexivity.
      cbn in Hbad. destruct (unhex hi), (unhex lo); try reflexivity.
      discriminate Hbad.
    - destruct p as [|b p]; [apply IH; cbn; lia|].
      cbn [app unescape]. destruct (Byte.eqb b percent).
      + destruct p as [|hi [|lo p]]; cbn [app].
        * destruct rest; reflexivity.
        * destruct (unhex hi); reflexivity.
        * rewrite (IH p) by (cbn in Hlen; lia).
          destruct (unhex hi), (unhex lo); try reflexivity.
          destruct (Byte.of_N _); reflexivity.
      + rewrite (IH p) by (cbn in Hlen; lia). reflexivity. }
  apply (G (length pre)). lia.
Qed.

Lemma pack_bound (bs line : list byte) (room : nat) :
  length line + room = MAX_LINE - 2 ->
  Forall (fun l => length l <= MAX_LINE - 2) (pack room line bs).
Proof.
  revert line room. induction bs as [|b bs IH]; intros line room E; cbn [pack].
  - constructor; [lia | constructor].
  - destruct (Nat.leb_spec (length (escape b)) room).
    + apply IH. rewrite length_app. lia.
    + constructor; [lia|]. apply IH.
      assert (length (escape b) <= 3)
        by (unfold escape; destruct (needs_escape b); cbn; lia).
      unfold MAX_LINE. lia.
Qed.

(** No line of an encoded payload is longer than the cap. *)
Lemma encodeData_bound (payload : list byte) :
  Forall (fun l => length l <= MAX_LINE) (encodeData payload).
Proof.
  unfold encodeData. apply List.Forall_map.
  eapply List.Forall_impl;
    [|apply (pack_bound payload [] (MAX_LINE - 2)); reflexivity].
  intros l Hl. rewrite length_app. cbn in *. unfold MAX_LINE in *. lia.
Qed.

(** C3.  Decoding the data lines of any payload gives the payload back,
    and a data line in which a percent sign is not followed by two
    hexadecimal digits is refused with [ParseError]. *)
Theorem decodeData_encodeData :
  (forall b : list byte, decodeData (encodeData b) = inr b) /\
  (forall pre rest : list byte,
      hex_pair rest = false ->
      decodeLine (bytes "D " ++ pre ++ percent :: rest) = inl ParseError).
Proof.
  split.
  - intros b. unfold encodeData. apply (decodeData_pack b [] (MAX_LINE - 2)).
  - intros pre rest Hbad. rewrite decodeLine_data, unescape_malformed by exact Hbad.
    reflexivity.
Qed.

Lemma decodeData_encodeData_witness :
  decodeData (encodeData [x25; x0d; x0a; x00; x41]) = inr [x25; x0d; x0a; x00; x41] /\
  decodeData (encodeData []) = inr [] /\
  hex_pair (bytes "4") = false /\
  decodeLine (bytes "D " ++ bytes "ab" ++ percent :: bytes "4") = inl ParseError /\
  decodeLine (bytes "D " ++ bytes "ab" ++ percent :: bytes "G1cd") = inl ParseError.
Proof.
  split; [apply (proj1 decodeData_encodeData)|].
  split; [apply (proj1 decodeData_encodeData)|].
  split; [reflexivity|].
  split.
  - apply (proj2 decodeData_encodeData (bytes "ab") (bytes "4")). reflexivity.
  - apply (proj2 decodeData_encodeData (bytes "ab") (bytes "G1cd")). reflexivity.
Defined.
End CodecRoundTrip.

(** * Strings *)

Section Strings.

Lemma append_cons (c : ascii) (a b : string) :
  String c a +:+ b = String c (a +:+ b).
Proof. reflexivity. Qed.

Lemma append_empty_l (a : string) : EmptyString +:+ a = a.
Proof. reflexivity. Qed.

Lemma append_assoc (a b c : string) : (a +:+ b) +:+ c = a +:+ b +:+ c.
Proof.
  induction a as [|x a IH]; [reflexivity|].
  rewrite !append_cons, IH. reflexivity.
Qed.

Lemma length_append (a b : string) :
  String.length (a +:+ b) = String.length a + String.length b.
Proof.
  induction a as [|x a IH]; [reflexivity|].
  rewrite append_cons. cbn. rewrite IH. reflexivity.
Qed.

Lemma strip_spec (w s r : string) : strip w s = Some r <-> s = w +:+ r.
Proof.
  revert s. induction w as [|a w IH]; intros s.
  - cbn. rewrite append_empty_l. split; congruence.
  - rewrite append_cons. destruct s as [|b s]; cbn.
    + split; discriminate.
    + destruct (Ascii.eqb_spec a b) as [->|Hne].
      * rewrite IH. split; congruence.
      * split; [discriminate|]. intros E. injection E as E1 E2. congruence.
Qed.

Lemma strip_append (w r : string) : strip w (w +:+ r) = Some r.
Proof. apply strip_spec. reflexivity. Qed.

Lemma includes_unfold (s sub : string) :
  includes s sub =
  match strip sub s with
  | Some _ => true
  | None =>
      match s with
      | String _ s' => includes s' sub
      | EmptyString => false
      end
  end.
Proof. destruct s; reflexivity. Qed.

(** [includes] decides [contains]. *)
Lemma includes_spec (s sub : string) : includes s sub = true <-> contains s sub.
Proof.
  induction s as [|c s IH]; rewrite includes_unfold.
  - destruct (strip sub EmptyString) as [r|] eqn:E.
    + apply strip_spec in E. split; [|reflexivity]. intros _.
      exists EmptyString, r. exact E.
    + split; [discriminate|]. intros [pre [post E']].
      destruct pre; [|discriminate E']. rewrite append_empty_l in E'.
      apply strip_spec in E'. congruence.
  - destruct (strip sub (String c s)) as [r|] eqn:E.
    + apply strip_spec in E. split; [|reflexivity]. intros _.
      exists EmptyString, r. exact E.
    + rewrite IH. split; intros [pre [post E']].
      * exists (String c pre), post. rewrite append_cons, <- E'. reflexivity.
      * destruct pre as [|c' pre].
        -- rewrite append_empty_l in E'. apply strip_spec in E'. congruence.
        -- rewrite append_cons in E'. injection E' as _ E'. exists pre, post. exact E'.
Qed.
End Strings.

(** * The key catalog: resolving an identifier *)

Section Resolve.

(** C8.  The search returns the first record, in the order of the list,
    whose fingerprint contains the identifier character for character,
    and fails with the key-not-found error when no fingerprint does. *)
Theorem getKeyInfo_search_first (infos : list GpgKeyInfo) (keyId : string) :
  match getKeyInfo_search infos keyId with
  | inr info =>
      exists before after,
        infos = before ++ info :: after /\
        contains (fingerprint info) keyId /\
        Forall (fun i => ~ contains (fingerprint i) keyId) before
  | inl e =>
      e = KeyNotFound keyId /\
      Forall (fun i => ~ contains (fingerprint i) keyId) infos
  end.
Proof.
  induction infos as [|info infos IH]; cbn [getKeyInfo_search].
  - split; [reflexivity | constructor].
  - destruct (includes (fingerprint info) keyId) eqn:E.
    + exists [], infos. split; [reflexivity|]. split; [|constructor].
      apply includes_spec, E.
    + assert (N : ~ contains (fingerprint info) keyId).
      { intros C. apply includes_spec in C. congruence. }
      destruct (getKeyInfo_search infos keyId) as [e|found].
      * destruct IH as [-> IH]. split; [reflexivity|]. constructor; assumption.
      * destruct IH as [before [after [-> [C B]]]].
        exists (info :: before), after. split; [reflexivity|]. split; [exact C|].
        constructor; assumption.
Qed.

(** The matching is sensitive to case, and an identifier found in two
    fingerprints resolves to the earlier record. *)
Example getKeyInfo_search_sample :
  let k1 := mkGpgKeyInfo "pub" "sc" "0123ABCFF00" "AAAA" in
  let k2 := mkGpgKeyInfo "sub" "e" "99ABCFF0077" "BBBB" in
  getKeyInfo_search [k1; k2] "ABCFF00" = inr k1 /\
  getKeyInfo_search [k1; k2] "F007" = inr k2 /\
  getKeyInfo_search [k1; k2] "abcff00" = inl (KeyNotFound "abcff00").
Proof. vm_compute. auto. Qed.
End Resolve.

(** * The status query *)

Section StatusQuery.

Lemma without_append (c : ascii) (a b : string) :
  without c (a +:+ b) = without c a && without c b.
Proof.
  induction a as [|x a IH]; [reflexivity|].
  rewrite append_cons. cbn. rewrite IH, andb_assoc. reflexivity.
Qed.

Lemma split_length (sep : ascii) (s : string) : 1 <= length (split sep s).
Proof.
  induction s as [|c s IH]; cbn; [lia|].
  destruct (Ascii.eqb c sep); cbn; [lia|].
  destruct (split sep s); cbn in *; lia.
Qed.

Lemma split_without (sep : ascii) (s : string) :
  without sep s = true -> split sep s = [s].
Proof.
  induction s as [|c s IH]; cbn; [reflexivity|].
  intros [Hc Hs]%andb_prop. rewrite negb_true_iff in Hc.
  rewrite Hc, (IH Hs). reflexivity.
Qed.

Lemma split_append (sep : ascii) (a b : string) :
  without sep a = true ->
  split sep (a +:+ String sep b) = a :: split sep b.
Proof.
  induction a as [|c a IH].
  - intros _. rewrite append_empty_l. cbn. rewrite Ascii.eqb_refl. reflexivity.
  - cbn [without]. intros [Hc Ha]%andb_prop. rewrite negb_true_iff in Hc.
    rewrite append_cons. cbn [split]. rewrite Hc, (IH Ha). reflexivity.
Qed.

Lemma concat_cons (sep t t' : string) (ts : list string) :
  String.concat sep (t :: t' :: ts) = t +:+ sep +:+ String.concat sep (t' :: ts).
Proof. reflexivity. Qed.

Lemma split_concat (sep : ascii) (ts : list string) :
  ts <> [] ->
  Forall (fun t => without sep t = true) ts ->
  split sep (String.concat (String sep EmptyString) ts) = ts.
Proof.
  induction ts as [|t ts IH]; [congruence|].
  intros _ Hall. inversion Hall as [|? ? Ht Hts]; subst.
  destruct ts as [|t' ts].
  - cbn. apply split_without, Ht.
  - rewrite concat_cons, append_cons, append_empty_l.
    rewrite split_append by exact Ht.
    rewrite IH by (congruence || assumption). reflexivity.
Qed.

Lemma without_concat (c sep : ascii) (ts : list string) :
  Ascii.eqb sep c = false ->
  Forall (fun t => without c t = true) ts ->
  without c (String.concat (String sep EmptyString) ts) = true.
Proof.
  intros Hsep. induction ts as [|t ts IH]; [reflexivity|].
  intros Hall. inversion Hall as [|? ? Ht Hts]; subst.
  destruct ts as [|t' ts]; [exact Ht|].
  rewrite concat_cons, !without_append, Ht, (IH Hts).
  cbn. rewrite Hsep. reflexivity.
Qed.

(** C9, as the code has it.  Take a status line made of the tokens [ts]
    with one blank between neighbours.  When the output of the query is
    that line and nothing else, not even a line break, the query fails
    with an error that carries the line, whatever the tokens are.  When a
    line break follows the line, the query fails with the parse error
    unless there are exactly 11 tokens, and with 11 tokens it returns
    true exactly when the token at index 6 is the text 1. *)
Theorem isKeyUnlocked_status_line (ts : list string) :
  ts <> [] ->
  Forall (fun t => token t = true) ts ->
  let line := String.concat " " ts in
  isKeyUnlocked_outputs line = inl (JsError line) /\
  forall rest : string,
    isKeyUnlocked_outputs (line +:+ nl +:+ rest) =
      (if length ts =? 11
       then inr (bool_decide (nth 6 ts EmptyString = "1"))
       else inl KEYINFO_ParseError).
Proof.
  intros Hne Hall line.
  assert (Hblank : Forall (fun t => without " " t = true) ts).
  { eapply List.Forall_impl; [|exact Hall]. cbn.
    intros t [Ht _]%andb_prop. exact Ht. }
  assert (Hfeed : Forall (fun t => without LF t = true) ts).
  { eapply List.Forall_impl; [|exact Hall]. cbn.
    intros t [_ Ht]%andb_prop. exact Ht. }
  assert (Hline : without LF line = true)
    by (apply without_concat; [reflexivity | exact Hfeed]).
  split.
  - unfold isKeyUnlocked_outputs. rewrite (split_without LF line Hline). reflexivity.
  - intros rest. unfold isKeyUnlocked_outputs, nl.
    rewrite append_cons, append_empty_l, (split_append LF line rest Hline).
    pose proof (split_length LF rest) as Hlen.
    replace (length (line :: split LF rest) =? 1) with false
      by (symmetry; apply Nat.eqb_neq; cbn; lia).
    cbn [nth]. unfold line at 1 2. rewrite (split_concat " " ts Hne Hblank).
    destruct (length ts =? 11); [|reflexivity].
    cbn [negb]. f_equal.
    destruct (String.eqb_spec (nth 6 ts EmptyString) "1") as [E|E].
    + rewrite bool_decide_eq_true_2; auto.
    + rewrite bool_decide_eq_false_2; auto.
Qed.

Lemma isKeyUnlocked_status_line_witness :
  let unlocked := "S KEYINFO CB18328AD05158F97CC8F33682F7AD291F52CB08 D - - 1 P - - -" in
  let locked := "S KEYINFO CB18328AD05158F97CC8F33682F7AD291F52CB08 D - - - P - - -" in
  let failed := "ERR 67108891 Not found <GPG Agent>" in
  isKeyUnlocked_outputs (unlocked +:+ nl +:+ "OK" +:+ nl) = inr true /\
  isKeyUnlocked_outputs (locked +:+ nl +:+ "OK" +:+ nl) = inr false /\
  isKeyUnlocked_outputs (failed +:+ nl) = inl KEYINFO_ParseError /\
  isKeyUnlocked_outputs failed = inl (JsError failed).
Proof.
  intros unlocked locked failed.
  split; [|split; [|split]].
  - apply (proj2 (isKeyUnlocked_status_line
                    ["S"; "KEYINFO"; "CB18328AD05158F97CC8F33682F7AD291F52CB08";
                     "D"; "-"; "-"; "1"; "P"; "-"; "-"; "-"]
                    ltac:(discriminate) ltac:(repeat constructor))
             ("OK" +:+ nl)).
  - apply (proj2 (isKeyUnlocked_status_line
                    ["S"; "KEYINFO"; "CB18328AD05158F97CC8F33682F7AD291F52CB08";
                     "D"; "-"; "-"; "-"; "P"; "-"; "-"; "-"]
                    ltac:(discriminate) ltac:(repeat constructor))
             ("OK" +:+ nl)).
  - apply (proj2 (isKeyUnlocked_status_line
                    ["ERR"; "67108891"; "Not"; "found"; "<GPG"; "Agent>"]
                    ltac:(discriminate) ltac:(repeat constructor))
             EmptyString).
  - apply (proj1 (isKeyUnlocked_status_line
                    ["ERR"; "67108891"; "Not"; "found"; "<GPG"; "Agent>"]
                    ltac:(discriminate) ltac:(repeat constructor))).
Defined.

(** C9, as stated, fails on an output that is one line with no line
    break after it: the line has 11 tokens and the token at index 6 is
    the text 1, yet the query does not return true; it fails with an
    error that carries the line. *)
Lemma isKeyUnlocked_one_line :
  let line := "S KEYINFO CB18328AD05158F97CC8F33682F7AD291F52CB08 D - - 1 P - - -" in
  length (split " " line) = 11 /\
  nth 6 (split " " line) EmptyString = "1" /\
  isKeyUnlocked_outputs line = inl (JsError line) /\
  isKeyUnlocked_outputs line <> inr true.
Proof. cbv zeta. repeat split. discriminate. Qed.
End StatusQuery.

(** * The matcher *)

Section Matcher.
Implicit Types (s rest : string) (caps : gmap nat string).
Implicit Types (k : string -> gmap nat string -> option (gmap nat string * string)).

Lemma take_append (m rest : string) :
  take (String.length (m +:+ rest) - String.length rest) (m +:+ rest) = m.
Proof.
  rewrite length_append.
  replace (String.length m + String.length rest - String.length rest)
    with (String.length m) by lia.
  induction m as [|c m IH]; [destruct rest; reflexivity|].
  rewrite append_cons. cbn. rewrite IH. reflexivity.
Qed.

Lemma strip_length (w s r : string) :
  strip w s = Some r -> String.length s = String.length w + String.length r.
Proof. intros E%strip_spec. subst s. apply length_append. Qed.

Lemma orelse_some {T} (a b : option T) (x : T) :
  orelse a b = Some x -> a = Some x \/ (a = None /\ b = Some x).
Proof. destruct a; cbn; intros E; [left | right]; auto. Qed.

(** *** Whatever matches leaves a suffix of the text to what follows *)

Lemma star_loop_shrinking step greedy :
  shrinking step -> forall fuel, shrinking (fun s caps k => star_loop step greedy k fuel s caps).
Proof.
  intros Hstep fuel. induction fuel as [|fuel IH]; intros s caps k res; cbn [star_loop].
  - intros E. exists s, caps. auto.
  - assert (Again :
      step s caps
        (fun s' caps' =>
           if String.length s' <? String.length s
           then star_loop step greedy k fuel s' caps' else None) = Some res ->
      exists s' caps', String.length s' <= String.length s /\ k s' caps' = Some res).
    { intros E. apply Hstep in E as [s1 [caps1 [L1 E]]].
      destruct (String.length s1 <? String.length s); [|discriminate].
      apply IH in E as [s2 [caps2 [L2 E]]]. exists s2, caps2. split; [lia | exact E]. }
    assert (Now : k s caps = Some res ->
      exists s' caps', String.length s' <= String.length s /\ k s' caps' = Some res)
      by (intros E; exists s, caps; auto).
    destruct greedy; intros [E|[_ E]]%orelse_some; auto.
Qed.

Lemma repeat_loop_shrinking step :
  shrinking step -> forall n, shrinking (fun s caps k => repeat_loop step k n s caps).
Proof.
  intros Hstep n. induction n as [|n IH]; intros s caps k res; cbn [repeat_loop].
  - intros E. exists s, caps. auto.
  - intros E. apply Hstep in E as [s1 [caps1 [L1 E]]].
    apply IH in E as [s2 [caps2 [L2 E]]]. exists s2, caps2. split; [lia | exact E].
Qed.

Lemma matcher_shrinking (r : regex) : shrinking (matcher r).
Proof.
  induction r as [w|p|r1 IH1 r2 IH2|r1 IH1 r2 IH2|greedy r IH|n r IH|i r IH];
    intros s caps k res; cbn [matcher].
  - destruct (strip w s) as [s'|] eqn:E; [|discriminate].
    intros Hk. exists s', caps. split; [|exact Hk].
    apply strip_length in E. lia.
  - destruct s as [|c s]; [discriminate|]. destruct (p c); [|discriminate].
    intros Hk. exists s, caps. cbn. split; [lia | exact Hk].
  - intros E. apply IH1 in E as [s1 [caps1 [L1 E]]].
    apply IH2 in E as [s2 [caps2 [L2 E]]]. exists s2, caps2. split; [lia | exact E].
  - intros [E|[_ E]]%orelse_some; [apply IH1 in E | apply IH2 in E]; exact E.
  - apply (star_loop_shrinking (matcher r) greedy IH).
  - apply (repeat_loop_shrinking (matcher r) IH).
  - intros E. apply IH in E as [s1 [caps1 [L1 E]]]. eauto.
Qed.

Lemma key_start_consumes (a b : string) (i : nat) (tail : regex) s caps rest :
  String.length a = 3 -> String.length b = 3 ->
  matcher (Seq (Group i (Alt (Lit a) (Lit b))) tail) s ∅ accept = Some (caps, rest) ->
  String.length rest < String.length s.
Proof.
  intros Ha Hb. cbn [matcher].
  intros [E|[_ E]]%orelse_some;
    (destruct (strip _ s) as [s1|] eqn:E1; [|discriminate];
     apply matcher_shrinking in E as [s2 [caps2 [L M]]];
     injection M as -> ->; apply strip_length in E1; lia).
Qed.

(** A match of the pattern consumes text. *)
Lemma pattern_consumes s caps rest :
  matcher pattern s ∅ accept = Some (caps, rest) ->
  String.length rest < String.length s.
Proof. unfold pattern. apply key_start_consumes; reflexivity. Qed.

Lemma exec_consumes s caps rest :
  exec s = Some (caps, rest) -> String.length rest < String.length s.
Proof.
  induction s as [|c s IH]; cbn [exec].
  - destruct (matcher pattern EmptyString ∅ accept) eqn:E; [|discriminate].
    intros E'. injection E' as ->. apply pattern_consumes in E. exact E.
  - destruct (matcher pattern (String c s) ∅ accept) eqn:E.
    + intros E'. injection E' as ->. apply pattern_consumes in E. exact E.
    + intros E'. apply IH in E'. cbn. lia.
Qed.

(** The loop of [parseGpgKey] never runs out of rounds: any number of
    rounds above the length of the text gives the same records. *)
Lemma parse_loop_fuel (n m : nat) s :
  String.length s < n -> String.length s < m -> parse_loop n s = parse_loop m s.
Proof.
  revert m s. induction n as [|n IH]; intros m s Hn Hm; [lia|].
  destruct m as [|m]; [lia|]. cbn [parse_loop].
  destruct (exec s) as [[caps rest]|] eqn:E; [|reflexivity].
  apply exec_consumes in E. f_equal. apply IH; lia.
Qed.
End Matcher.

(** * Matching a well-formed block *)

Section BlockMatch.
Implicit Types (s rest : string) (caps : gmap nat string).
Implicit Types (k : string -> gmap nat string -> option (gmap nat string * string)).
Implicit Types (res : gmap nat string * string).

Lemma matcher_seq r1 r2 s caps k :
  matcher (Seq r1 r2) s caps k = matcher r1 s caps (fun s' caps' => matcher r2 s' caps' k).
Proof. reflexivity. Qed.

Lemma matcher_alt r1 r2 s caps k :
  matcher (Alt r1 r2) s caps k = orelse (matcher r1 s caps k) (matcher r2 s caps k).
Proof. reflexivity. Qed.

Lemma matcher_star greedy r s caps k :
  matcher (Star greedy r) s caps k =
  star_loop (matcher r) greedy k (String.length s) s caps.
Proof. reflexivity. Qed.

Lemma matcher_repeat n r s caps k :
  matcher (Repeat n r) s caps k = repeat_loop (matcher r) k n s caps.
Proof. reflexivity. Qed.

Lemma matcher_group i r s caps k :
  matcher (Group i r) s caps k =
  matcher r s caps
    (fun s' caps' => k s' (<[i := take (String.length s - String.length s') s]> caps')).
Proof. reflexivity. Qed.

Lemma matcher_class p c s caps k :
  matcher (Class p) (String c s) caps k = if p c then k s caps else None.
Proof. reflexivity. Qed.

Lemma matcher_lit w rest caps k : matcher (Lit w) (w +:+ rest) caps k = k rest caps.
Proof. cbn [matcher]. rewrite strip_append. reflexivity. Qed.

Lemma matcher_lit_fail w s caps k : strip w s = None -> matcher (Lit w) s caps k = None.
Proof. intros E. cbn [matcher]. rewrite E. reflexivity. Qed.

Lemma orelse_left {T} (a b : option T) (x : T) : a = Some x -> orelse a b = Some x.
Proof. intros ->. reflexivity. Qed.

Lemma orelse_right {T} (a b : option T) (x : T) :
  a = None -> b = Some x -> orelse a b = Some x.
Proof. intros -> ->. reflexivity. Qed.

Lemma stops_append p (a b : string) :
  stops p a = true -> stops p b = true -> stops p (a +:+ b) = true.
Proof. destruct a; [rewrite append_empty_l | rewrite append_cons]; auto. Qed.

(** A greedy star over a class runs to the end of the text of the class;
    when what follows succeeds there, that is the match. *)
Lemma star_class p (f rest : string) caps k fuel res :
  all p f = true -> stops p rest = true -> String.length f <= fuel ->
  k rest caps = Some res ->
  star_loop (matcher (Class p)) true k fuel (f +:+ rest) caps = Some res.
Proof.
  revert fuel. induction f as [|c f IH]; intros fuel Hall Hstop Hfuel Hk.
  - rewrite append_empty_l. destruct fuel; cbn [star_loop]; [exact Hk|].
    apply orelse_right; [|exact Hk].
    destruct rest as [|c rest]; [reflexivity|].
    rewrite matcher_class. cbn in Hstop. apply negb_true_iff in Hstop.
    rewrite Hstop. reflexivity.
  - rewrite append_cons. destruct fuel as [|fuel]; [cbn in Hfuel; lia|].
    cbn [all] in Hall. apply andb_prop in Hall as [Hc Hf].
    cbn [star_loop]. apply orelse_left. rewrite matcher_class, Hc.
    replace (String.length (f +:+ rest) <? String.length (String c (f +:+ rest)))
      with true by (symmetry; apply Nat.ltb_lt; cbn; lia).
    apply IH; auto. cbn in Hfuel. lia.
Qed.

Lemma matcher_star_class p (f rest : string) caps k res :
  all p f = true -> stops p rest = true -> k rest caps = Some res ->
  matcher (Star true (Class p)) (f +:+ rest) caps k = Some res.
Proof.
  intros. rewrite matcher_star. apply star_class; auto.
  rewrite length_append. lia.
Qed.

Lemma matcher_plus_class p (f rest : string) caps k res :
  f <> EmptyString -> all p f = true -> stops p rest = true ->
  k rest caps = Some res ->
  matcher (Plus (Class p)) (f +:+ rest) caps k = Some res.
Proof.
  intros Hne Hall Hstop Hk. destruct f as [|c f]; [congruence|].
  cbn [all] in Hall. apply andb_prop in Hall as [Hc Hf].
  unfold Plus. rewrite matcher_seq, append_cons, matcher_class, Hc.
  apply matcher_star_class; auto.
Qed.

Lemma matcher_field (f rest : string) caps k res :
  all not_colon f = true -> k rest caps = Some res ->
  matcher field (f +:+ ":" +:+ rest) caps k = Some res.
Proof.
  intros Hf Hk. unfold field. rewrite matcher_seq.
  apply matcher_star_class; [exact Hf | reflexivity|].
  rewrite matcher_lit. exact Hk.
Qed.

Lemma matcher_fields (fs : list string) (n : nat) rest caps k res :
  length fs = n -> forallb field_text fs = true -> k rest caps = Some res ->
  repeat_loop (matcher field) k n (join_fields fs +:+ rest) caps = Some res.
Proof.
  revert n. induction fs as [|f fs IH]; intros n Hn Hfs Hk.
  - subst n. exact Hk.
  - subst n. cbn [forallb] in Hfs. apply andb_prop in Hfs as [Hf Hfs].
    apply andb_prop in Hf as [Hf _].
    cbn [length repeat_loop join_fields]. rewrite !append_assoc.
    apply matcher_field; [exact Hf|]. apply IH; auto.
Qed.

Lemma strip_nl_field (f rest : string) :
  without LF f = true -> strip nl (f +:+ ":" +:+ rest) = None.
Proof.
  destruct f as [|c f]; [reflexivity|].
  cbn [without]. intros [Hc _]%andb_prop. apply negb_true_iff in Hc.
  rewrite append_cons. unfold nl.
  change (strip (String LF EmptyString) (String c (f +:+ ":" +:+ rest)))
    with (if Ascii.eqb LF c then strip EmptyString (f +:+ ":" +:+ rest) else None).
  rewrite Ascii.eqb_sym, Hc. reflexivity.
Qed.

Lemma join_fields_length (ts : list string) rest :
  length ts <= String.length (join_fields ts +:+ rest).
Proof.
  induction ts as [|t ts IH]; cbn [length join_fields]; [lia|].
  rewrite length_append in IH.
  rewrite !append_assoc, !length_append. cbn [String.length]. lia.
Qed.

(** A lazy star over fields in front of a line feed takes the fields of
    the rest of the line: before each of them what follows cannot start,
    and when it succeeds behind them, that is the match. *)
Lemma lazy_fields (ts : list string) rest caps k fuel res :
  forallb field_text ts = true ->
  (forall s c, strip nl s = None -> k s c = None) ->
  length ts <= fuel ->
  k rest caps = Some res ->
  star_loop (matcher field) false k fuel (join_fields ts +:+ rest) caps = Some res.
Proof.
  intros Hts Hfail. revert fuel. induction ts as [|t ts IH]; intros fuel Hfuel Hk.
  - cbn [join_fields]. rewrite append_empty_l.
    destruct fuel; cbn [star_loop]; [exact Hk|]. apply orelse_left, Hk.
  - cbn [forallb] in Hts. apply andb_prop in Hts as [Ht Hts].
    apply andb_prop in Ht as [Hcolon Hfeed].
    destruct fuel as [|fuel]; [cbn in Hfuel; lia|].
    cbn [star_loop join_fields]. rewrite !append_assoc.
    apply orelse_right; [apply Hfail, strip_nl_field, Hfeed|].
    apply matcher_field; [exact Hcolon|].
    replace (String.length (join_fields ts +:+ rest) <?
             String.length (t +:+ ":" +:+ join_fields ts +:+ rest))
      with true
      by (symmetry; apply Nat.ltb_lt; rewrite !length_append; cbn; lia).
    apply IH; auto. cbn in Hfuel. lia.
Qed.

Lemma matcher_lazy_fields (ts : list string) rest caps k res :
  forallb field_text ts = true ->
  (forall s c, strip nl s = None -> k s c = None) ->
  k rest caps = Some res ->
  matcher (Star false field) (join_fields ts +:+ rest) caps k = Some res.
Proof.
  intros. rewrite matcher_star. apply lazy_fields; auto. apply join_fields_length.
Qed.

Lemma star_lazy_now step k fuel s caps res :
  k s caps = Some res -> star_loop step false k fuel s caps = Some res.
Proof. intros Hk. destruct fuel; cbn [star_loop]; [exact Hk|]. apply orelse_left, Hk. Qed.
End BlockMatch.

(** * The key catalog: parsing a listing *)

Section Listing.

Lemma append_empty_r (a : string) : a +:+ EmptyString = a.
Proof. induction a as [|c a IH]; [reflexivity|]. rewrite append_cons, IH. reflexivity. Qed.

Lemma strip_app (a b s : string) :
  strip (a +:+ b) s =
  match strip a s with
  | Some s' => strip b s'
  | None => None
  end.
Proof.
  revert s. induction a as [|c a IH]; intros s; [reflexivity|].
  rewrite append_cons. destruct s as [|d s]; [reflexivity|].
  cbn [strip]. destruct (Ascii.eqb c d); [apply IH | reflexivity].
Qed.

Ltac lit := rewrite matcher_seq, matcher_lit.

(** The pattern matches a well-formed block from its start to the colon
    behind the keygrip, and the groups are the parts of the block. *)
Lemma match_block (b : Block) (rest : string) :
  well_formed b = true ->
  matcher pattern (block_text b +:+ rest) ∅ accept = Some (captures_of b, rest).
Proof.
  destruct b as [kd kf fl more ktail tag ff fp ftail gf gp].
  unfold well_formed, block_text, captures_of.
  cbv [kind key_fields flags flags_more key_tail fpr_tag fpr_fields
       fpr fpr_tail grp_fields grp].
  intros H. repeat (apply andb_prop in H as [H ?]).
  repeat match goal with
         | E : (length _ =? _) = true |- _ => apply Nat.eqb_eq in E
         end.
  assert (Hfl : fl <> EmptyString)
    by (apply String.eqb_neq, negb_true_iff; assumption).
  assert (Hkd : kd = "pub" \/ kd = "sub")
    by (apply orb_prop in H as [E|E]; apply String.eqb_eq in E; auto).
  assert (Htag : tag = "fpr" \/ tag = "fp2").
  { match goal with
    | E : (_ || _) = true |- _ =>
        apply orb_prop in E as [E|E]; apply String.eqb_eq in E; auto
    end. }
  clear H.
  rewrite !append_assoc. unfold pattern.
  assert (Hfeed :
    forall R (k : string -> gmap nat string -> option (gmap nat string * string)) s c,
      strip nl s = None ->
      (fun s' caps' => matcher (Seq (Lit nl) R) s' caps' k) s c = None).
  { intros R k s c E. cbv beta. rewrite matcher_seq. apply matcher_lit_fail, E. }
  (* the key record *)
  rewrite matcher_seq, matcher_group, matcher_alt.
  destruct Hkd as [-> | ->];
    [apply orelse_left | apply orelse_right; [reflexivity|]];
    (rewrite matcher_lit; cbv beta; rewrite take_append;
     lit;
     rewrite matcher_seq, matcher_repeat;
     apply matcher_fields; [assumption | assumption | cbv beta];
     (* the capabilities *)
     rewrite matcher_seq, matcher_group;
     apply matcher_plus_class;
       [exact Hfl | assumption | apply stops_append; [assumption | reflexivity]
       | cbv beta; rewrite take_append];
     rewrite matcher_seq;
     apply matcher_star_class; [assumption | reflexivity |];
     lit;
     rewrite matcher_seq;
     apply matcher_lazy_fields; [assumption | apply Hfeed | cbv beta];
     lit;
     (* the fingerprint record *)
     rewrite matcher_seq, matcher_alt;
     destruct Htag as [-> | ->];
       [apply orelse_left | apply orelse_right; [reflexivity|]];
       (rewrite matcher_lit;
        lit;
        rewrite matcher_seq, matcher_repeat;
        apply matcher_fields; [assumption | assumption | cbv beta];
        rewrite matcher_seq, matcher_group;
        apply matcher_star_class;
          [assumption | reflexivity | cbv beta; rewrite take_append];
        lit;
        rewrite matcher_seq;
        apply matcher_lazy_fields; [assumption | apply Hfeed | cbv beta];
        lit;
        (* the keygrip record *)
        lit;
        rewrite matcher_seq, matcher_repeat;
        apply matcher_fields; [assumption | assumption | cbv beta];
        rewrite matcher_seq, matcher_group;
        apply matcher_star_class;
          [assumption | reflexivity | cbv beta; rewrite take_append];
        lit;
        rewrite matcher_star; apply star_lazy_now; reflexivity)).
Qed.

Lemma pattern_fails (s : string) (caps : gmap nat string)
  (k : string -> gmap nat string -> option (gmap nat string * string)) :
  starts_key s = false -> matcher pattern s caps k = None.
Proof.
  unfold starts_key. intros H.
  assert (Hpub : strip ("pub" +:+ ":") s = None)
    by (change ("pub" +:+ ":") with "pub:"; destruct (strip "pub:" s); [discriminate|reflexivity]).
  assert (Hsub : strip ("sub" +:+ ":") s = None)
    by (change ("sub" +:+ ":") with "sub:";
        destruct (strip "pub:" s), (strip "sub:" s); try discriminate; reflexivity).
  rewrite strip_app in Hpub, Hsub.
  unfold pattern. rewrite matcher_seq, matcher_group, matcher_alt.
  cbn [matcher]. unfold orelse.
  destruct (strip "pub" s) as [s1|]; [rewrite Hpub|];
    (destruct (strip "sub" s) as [s2|]; [rewrite Hsub|]; reflexivity).
Qed.

Lemma exec_unfold (s : string) :
  exec s =
  match matcher pattern s ∅ accept with
  | Some m => Some m
  | None =>
      match s with
      | String _ s' => exec s'
      | EmptyString => None
      end
  end.
Proof. destruct s; reflexivity. Qed.

(** The search passes over text in which no key record starts. *)
Lemma exec_skip (junk next : string) :
  clean junk next = true -> exec (junk +:+ next) = exec next.
Proof.
  induction junk as [|c junk IH]; [reflexivity|].
  cbn [clean]. intros [Hc Hj]%andb_prop. apply negb_true_iff in Hc.
  rewrite exec_unfold, pattern_fails by exact Hc.
  rewrite append_cons. apply IH, Hj.
Qed.

Lemma exec_block (b : Block) (rest : string) :
  well_formed b = true -> exec (block_text b +:+ rest) = Some (captures_of b, rest).
Proof. intros H. rewrite exec_unfold, match_block by exact H. reflexivity. Qed.

Lemma exec_clean (junk : string) : clean junk EmptyString = true -> exec junk = None.
Proof.
  intros H. rewrite <- (append_empty_r junk), exec_skip by exact H. reflexivity.
Qed.

Lemma info_of_captures (b : Block) : info_of (captures_of b) = record_of b.
Proof. reflexivity. Qed.

(** C7.  A listing made of two well-formed blocks, with text before,
    between and behind them in which no key record starts, is parsed into
    exactly two records, in the order of the listing, and each record has
    the type, the capabilities, the fingerprint and the keygrip of its own
    block.  The primary key followed by a subkey is the case of a first
    block of kind pub and a second of kind sub. *)
Theorem parseGpgKey_two_blocks (first second : Block) (pre mid post : string) :
  well_formed first = true ->
  well_formed second = true ->
  clean pre (block_text first +:+ mid +:+ block_text second +:+ post) = true ->
  clean mid (block_text second +:+ post) = true ->
  clean post EmptyString = true ->
  parseGpgKey (pre +:+ block_text first +:+ mid +:+ block_text second +:+ post) =
  [record_of first; record_of second].
Proof.
  intros W1 W2 Cpre Cmid Cpost. unfold parseGpgKey.
  set (text := pre +:+ block_text first +:+ mid +:+ block_text second +:+ post).
  rewrite (parse_loop_fuel _ (3 + String.length text)) by lia.
  subst text. cbn [Nat.add parse_loop].
  rewrite (exec_skip pre _ Cpre), (exec_block first _ W1).
  rewrite (exec_skip mid _ Cmid), (exec_block second _ W2).
  rewrite (exec_clean post Cpost), !info_of_captures. reflexivity.
Qed.

Lemma parseGpgKey_two_blocks_witness :
  parseGpgKey
    (EmptyString +:+ block_text sample_pub +:+ sample_uid +:+
     block_text sample_sub +:+ nl) =
  [mkGpgKeyInfo "pub" "sc" "0123456789ABCDEF0123456789ABCDEF01234567"
     "AAAABBBBCCCCDDDDEEEEFFFF0000111122223333";
   mkGpgKeyInfo "sub" "e" "89ABCDEF0123456789ABCDEF0123456789ABCDEF"
     "4444555566667777888899990000AAAABBBBCCCC"].
Proof.
  apply (parseGpgKey_two_blocks sample_pub sample_sub EmptyString sample_uid nl);
    vm_compute; reflexivity.
Defined.

(** Outside the well-formed listings the pattern does pair across blocks:
    a primary key without fingerprint and keygrip records takes those of
    the subkey behind it, and the subkey is lost. *)
Example parseGpgKey_pairs_across_blocks :
  parseGpgKey
    ("pub:u:4096:1:AAAAAAAAAAAAAAAA:1590000000:::u:::scESC::::::23::0:" +:+
     sample_uid +:+ block_text sample_sub +:+ nl) =
  [mkGpgKeyInfo "pub" "sc" "89ABCDEF0123456789ABCDEF0123456789ABCDEF"
     "4444555566667777888899990000AAAABBBBCCCC"].
Proof. vm_compute. reflexivity. Qed.
End Listing.

(** * The unlock command *)

Section Steps.
Context {W : Type} (R : W -> W -> Prop).
Hypothesis R_refl : forall w, R w w.
Hypothesis R_trans : forall a b c, R a b -> R b c -> R a c.

Lemma steps_ret {T} (x : T) : steps R (ret x).
Proof. intros w. apply R_refl. Qed.

Lemma steps_throw {T} (e : Error) : steps R (T := T) (throw e).
Proof. intros w. apply R_refl. Qed.

Lemma steps_lift {T} (r : Error + T) : steps R (Gpg.lift r).
Proof. intros w. apply R_refl. Qed.

Lemma steps_bind {T V} (m : M W T) (k : T -> M W V) :
  steps R m -> (forall x, steps R (k x)) -> steps R (bind m k).
Proof.
  intros Hm Hk w. unfold bind. specialize (Hm w).
  destruct (m w) as [[e|x] w1]; cbn in *; [exact Hm|].
  eapply R_trans; [exact Hm | apply Hk].
Qed.

Lemma steps_try_catch {T} (m : M W T) (h : Error -> M W T) :
  steps R m -> (forall e, steps R (h e)) -> steps R (try_catch m h).
Proof.
  intros Hm Hh w. unfold try_catch. specialize (Hm w).
  destruct (m w) as [[e|x] w1]; cbn in *; [|exact Hm].
  eapply R_trans; [exact Hm | apply Hh].
Qed.
End Steps.

Section Unlock.
Import Extension.
Context {A U : Type} `{AssuanClient A}.
Variable trim : string -> string.

Lemma only_queries_refl (w : World A) : only_queries w w.
Proof. split; [reflexivity|]. exists []. rewrite app_nil_r. auto. Qed.

Lemma only_queries_trans (a b c : World A) :
  only_queries a b -> only_queries b c -> only_queries a c.
Proof.
  intros [S1 [n1 [E1 F1]]] [S2 [n2 [E2 F2]]]. split; [congruence|].
  exists (n1 ++ n2). rewrite E2, E1, app_assoc, forallb_app, F1, F2. auto.
Qed.

Lemma ext_refl (st : Ext A U) : only_queries_ext st st.
Proof. apply only_queries_refl. Qed.

Lemma ext_trans (a b c : Ext A U) :
  only_queries_ext a b -> only_queries_ext b c -> only_queries_ext a c.
Proof. apply only_queries_trans. Qed.

Lemma steps_log (message : string) : steps only_queries (log (A := A) message).
Proof.
  intros w. cbn. split; [reflexivity|]. exists []. cbn. rewrite app_nil_r. auto.
Qed.

Lemma steps_isKeyUnlocked (keygrip : string) :
  steps only_queries (isKeyUnlocked (A := A) keygrip).
Proof.
  apply steps_bind; [apply only_queries_trans| |intros; apply steps_lift, only_queries_refl].
  intros w. cbn [snd textSpawn]. split; [reflexivity|]. eexists. split; [reflexivity|].
  unfold status_query. cbn [forallb program arguments input].
  rewrite strip_append. reflexivity.
Qed.

Lemma steps_gpg {T} (m : M (World A) T) :
  steps only_queries m -> steps only_queries_ext (gpg (U := U) m).
Proof.
  intros Hm st. unfold gpg. specialize (Hm (world st)).
  destruct (m (world st)) as [r w]. exact Hm.
Qed.

Lemma steps_logger_log (message : string) :
  steps only_queries_ext (logger_log (A := A) (U := U) message).
Proof. apply steps_gpg, steps_log. Qed.

Lemma steps_notifyUpdate (event : KeyStatusEvent) :
  steps only_queries_ext (notifyUpdate (A := A) (U := U) event).
Proof.
  unfold notifyUpdate.
  repeat (apply steps_bind; [apply ext_trans | apply steps_logger_log | intros]).
  intros st. unfold only_queries_ext. cbn. apply only_queries_refl.
Qed.

Lemma steps_announce (event : KeyStatusEvent) :
  steps only_queries_ext
    (bind (set_lastEvent (A := A) (U := U) event) (fun _ => notifyUpdate event)).
Proof.
  apply steps_bind; [apply ext_trans | | intros; apply steps_notifyUpdate].
  intros st. unfold only_queries_ext. cbn. apply only_queries_refl.
Qed.

Lemma steps_syncStatus : steps only_queries_ext (syncStatus (A := A) (U := U)).
Proof.
  intros st. unfold syncStatus.
  destruct (activateFolder (manager st)) as [[|c folder]|]; try apply ext_refl.
  destruct (keyOfFolders (manager st) !! String c folder) as [keyInfo|];
    [|apply ext_refl].
  revert st. apply steps_bind; [apply ext_trans | |].
  - apply steps_try_catch; [apply ext_trans | |].
    + apply steps_bind; [apply ext_trans | apply steps_gpg, steps_isKeyUnlocked|].
      intros. apply steps_ret, ext_refl.
    + intros e. destruct e; try apply steps_throw, ext_refl;
        (apply steps_bind;
         [apply ext_trans | apply steps_logger_log | intros; apply steps_ret, ext_refl]).
  - intros [event|] st'; [|apply ext_refl].
    destruct (lastEvent (manager st')) as [last|]; [|apply steps_announce].
    destruct (negb (equal event last)); [apply steps_announce | apply ext_refl].
Qed.

(** C10.  With an active folder and a key for it: when the status query
    that follows the refresh reports the key as unlocked, the command
    logs that it skips the request and returns without error, and from
    the world before to the world after no session was opened and the
    only processes spawned were status queries, so the passphrase went
    nowhere.  A session is opened only in a run whose query reported the
    key as locked. *)
Theorem unlockCurrentKey_skips_unlocked (st : Ext A U) (passphrase folder : string)
  (theKey : GpgKeyInfo) :
  activateFolder (manager st) = Some folder ->
  keyOfFolders (manager st) !! folder = Some theKey ->
  (forall st1 st2,
      syncStatus st = (inr tt, st1) ->
      gpg (isKeyUnlocked (keygrip theKey)) st1 = (inr true, st2) ->
      unlockCurrentKey trim passphrase st =
        logger_log "Key is already unlocked, skip unlock request" st2 /\
      fst (unlockCurrentKey trim passphrase st) = inr tt /\
      only_queries_ext st (snd (unlockCurrentKey trim passphrase st))) /\
  (sessions (world (snd (unlockCurrentKey trim passphrase st))) <> sessions (world st) ->
   exists st1 st2,
     syncStatus st = (inr tt, st1) /\
     gpg (isKeyUnlocked (keygrip theKey)) st1 = (inr false, st2)).
Proof.
  intros Hfolder Hkey. split.
  - intros st1 st2 Hsync Hquery.
    assert (E : unlockCurrentKey trim passphrase st =
                logger_log "Key is already unlocked, skip unlock request" st2).
    { unfold unlockCurrentKey. rewrite Hfolder, Hkey. unfold bind at 1.
      rewrite Hsync. unfold bind at 1. rewrite Hquery. reflexivity. }
    rewrite E. split; [reflexivity|]. split; [reflexivity|].
    eapply ext_trans; [|apply steps_logger_log].
    eapply ext_trans.
    + pose proof (steps_syncStatus st) as S. rewrite Hsync in S. exact S.
    + pose proof (steps_gpg (isKeyUnlocked (keygrip theKey))
                    (steps_isKeyUnlocked _) st1) as S.
      rewrite Hquery in S. exact S.
  - unfold unlockCurrentKey. rewrite Hfolder, Hkey. unfold bind at 1.
    pose proof (steps_syncStatus st) as S1.
    destruct (syncStatus st) as [[e|[]] st1] eqn:E1; cbn [snd] in *.
    + intros N. destruct S1 as [S1 _]. contradiction.
    + unfold bind at 1.
      pose proof (steps_gpg (isKeyUnlocked (keygrip theKey))
                    (steps_isKeyUnlocked _) st1) as S2.
      destruct (gpg (isKeyUnlocked (keygrip theKey)) st1) as [[e|[|]] st2] eqn:E2;
        cbn [snd] in *.
      * intros N. exfalso. apply N.
        destruct S1 as [S1 _], S2 as [S2 _]. congruence.
      * intros N. exfalso. apply N.
        destruct (steps_logger_log "Key is already unlocked, skip unlock request" st2)
          as [S3 _].
        destruct S1 as [S1 _], S2 as [S2 _]. congruence.
      * intros _. exists st1, st2. auto.
Qed.
End Unlock.

Section UnlockSample.
Import Extension.

Lemma unlockCurrentKey_skips_unlocked_witness :
  let r := unlockCurrentKey (H := scripted) (fun s => s) "secret" sample_ext in
  fst r = inr tt /\ only_queries_ext sample_ext (snd r).
Proof.
  assert (Hkey : keyOfFolders (manager sample_ext) !! "/repo" = Some sample_key)
    by apply lookup_singleton_eq.
  destruct (unlockCurrentKey_skips_unlocked (H := scripted) (fun s => s)
              sample_ext "secret" "/repo" sample_key eq_refl Hkey) as [Skip _].
  destruct (Skip (snd (syncStatus sample_ext))
              (snd (gpg (isKeyUnlocked (keygrip sample_key))
                      (snd (syncStatus sample_ext)))))
    as [_ [Hres Hworld]].
  - vm_compute. reflexivity.
  - vm_compute. reflexivity.
  - split; assumption.
Defined.
End UnlockSample.

(** * More on the signing handshake *)

Section SignOutcomes.
Context {A : Type} `{AssuanClient A}.
Variables (client : A) (keygrip passphrase sha1Hash : string).

Ltac run_script :=
  unfold sign, sign_script, try_finally, bind, agent_initialize, agent_sendRequest,
    agent_receiveResponse, agent_dispose, checkType, ret, throw;
  cbn;
  repeat (match goal with
          | |- context [initialize ?a] => destruct (initialize a) as [[?|] ?]
          | |- context [receiveResponse ?a] => destruct (receiveResponse a) as [[?|[]] ?]
          | |- context [sendRequest ?r ?a] => destruct (sendRequest r a) as [[?|] ?]
          end; cbn).

(** A handshake that returns without error has sent one of two sequences
    of requests and nothing else: the five commands of the unlocked path,
    or the same with the passphrase and END between PKSIGN and BYE. *)
Theorem sign_success_requests :
  let r := sign client keygrip passphrase sha1Hash in
  fst r = inr tt ->
  sent (trace (snd r)) =
    [OPTION; SIGKEY keygrip; SETHASH sha1Hash; PKSIGN; BYE] \/
  sent (trace (snd r)) =
    [OPTION; SIGKEY keygrip; SETHASH sha1Hash; PKSIGN; PASSPHRASE passphrase; END; BYE].
Proof.
  run_script; intros E; try discriminate E; auto.
Qed.

(** No step is retried and nothing is attempted after a failure: once a
    call on the client has rejected, the only call that follows is
    [dispose], and the error of that call is the error [sign] returns. *)
Theorem sign_fail_stop :
  let r := sign client keygrip passphrase sha1Hash in
  fail_stop (trace (snd r)) = true /\
  match first_rejection (trace (snd r)) with
  | Some e => fst r = inl e
  | None => True
  end.
Proof.
  run_script; split; reflexivity || exact I.
Qed.

(** Requests go out in the order of the script and nothing follows BYE:
    whatever the client does, the requests sent are the beginning of one
    of the two full sequences. *)
Theorem sign_requests_in_order :
  let t := trace (snd (sign client keygrip passphrase sha1Hash)) in
  sent t `prefix_of` [OPTION; SIGKEY keygrip; SETHASH sha1Hash; PKSIGN; BYE] \/
  sent t `prefix_of`
    [OPTION; SIGKEY keygrip; SETHASH sha1Hash; PKSIGN; PASSPHRASE passphrase; END; BYE].
Proof.
  run_script;
    solve [left; eexists; reflexivity | right; eexists; reflexivity].
Qed.
End SignOutcomes.

Lemma sign_success_requests_witness :
  let r := sign (H := scripted)
             [Ok "Pleased to meet you"; Ok ""; Ok ""; Ok ""; RawData [x01]; Ok ""; Ok ""]
             "CB18328AD05158F97CC8F33682F7AD291F52CB08" "secret" SHA1_EMPTY_DIGEST in
  fst r = inr tt /\
  (sent (trace (snd r)) =
     [OPTION; SIGKEY "CB18328AD05158F97CC8F33682F7AD291F52CB08";
      SETHASH SHA1_EMPTY_DIGEST; PKSIGN; BYE] \/
   sent (trace (snd r)) =
     [OPTION; SIGKEY "CB18328AD05158F97CC8F33682F7AD291F52CB08";
      SETHASH SHA1_EMPTY_DIGEST; PKSIGN; PASSPHRASE "secret"; END; BYE]).
Proof.
  split; [reflexivity|].
  apply (sign_success_requests (H := scripted)). reflexivity.
Defined.

Section SignBranches.
Variables keygrip passphrase sha1Hash : string.

Local Abbreviation run := (run keygrip passphrase sha1Hash).
Local Abbreviation opening := (opening keygrip sha1Hash).

(** An answer to PKSIGN that is neither raw data nor a status line is
    not handled: the handshake fails with the error of the unhandled flow,
    sends neither passphrase nor BYE, and disposes of the client. *)
Theorem sign_unhandled_flow (g o k h : string) (r : Response) (rest : list Response) :
  getType r <> rawData -> getType r <> information ->
  run ([Ok g; Ok o; Ok k; Ok h; r] ++ rest) =
  (inl (JsError "unhandled signing flow"),
   mkConn rest (opening g o k h ++ [EReceive (inr r); EDispose])).
Proof. destruct r; cbn; intros N1 N2; try (exfalso; congruence); reflexivity. Qed.

(** The keywords are not looked at: after any status line in answer to
    PKSIGN and any inquiry behind it, the passphrase is sent, and END
    after it.  When what comes back is not raw data (a wrong passphrase
    comes back as an error), the handshake fails on that response, BYE is
    not sent, and the client is disposed. *)
Theorem sign_answers_any_inquiry (g o k h keyword info asked : string) :
  (forall rest : list Response,
      exists more,
        sent (trace (snd (run ([Ok g; Ok o; Ok k; Ok h;
                                Information keyword info; Inquire asked] ++ rest)))) =
        [OPTION; SIGKEY keygrip; SETHASH sha1Hash; PKSIGN;
         PASSPHRASE passphrase; END] ++ more) /\
  (forall (r : Response) (rest : list Response),
      getType r <> rawData ->
      run ([Ok g; Ok o; Ok k; Ok h; Information keyword info; Inquire asked; r] ++ rest) =
      (inl (UnexpectedResponse rawData (getType r)),
       mkConn rest
         (opening g o k h ++
          [EReceive (inr (Information keyword info)); EReceive (inr (Inquire asked));
           ESend (PASSPHRASE passphrase) None; ESend END None;
           EReceive (inr r); EDispose]))).
Proof.
  split.
  - intros rest. destruct rest as [|[] [|[] [|[] rest]]]; eexists; reflexivity.
  - intros r rest N. destruct r; cbn in *; try (exfalso; congruence); reflexivity.
Qed.
End SignBranches.

Lemma sign_unhandled_flow_witness :
  fst (run "CB18328AD05158F97CC8F33682F7AD291F52CB08" "secret" SHA1_EMPTY_DIGEST
         [Ok "Pleased to meet you"; Ok ""; Ok ""; Ok ""; Err 67108881 "No secret key"]) =
  inl (JsError "unhandled signing flow").
Proof.
  rewrite (sign_unhandled_flow _ "secret" _ "Pleased to meet you" "" "" ""
             (Err 67108881 "No secret key") []) by discriminate.
  reflexivity.
Defined.

Lemma sign_answers_any_inquiry_witness :
  fst (run "CB18328AD05158F97CC8F33682F7AD291F52CB08" "wrong" SHA1_EMPTY_DIGEST
         [Ok "Pleased to meet you"; Ok ""; Ok ""; Ok "";
          Information "INQUIRE_MAXLEN" "255"; Inquire "PASSPHRASE";
          Err 67108875 "Bad passphrase"]) =
  inl (UnexpectedResponse rawData err).
Proof.
  rewrite (proj2 (sign_answers_any_inquiry _ "wrong" _ "Pleased to meet you" "" "" ""
                    "INQUIRE_MAXLEN" "255" "PASSPHRASE")
             (Err 67108875 "Bad passphrase") []) by discriminate.
  reflexivity.
Defined.

(** * What the records of a listing always look like *)

Section RecordShape.
Implicit Types (s rest : string) (caps : gmap nat string).
Implicit Types (k : string -> gmap nat string -> option (gmap nat string * string)).
Implicit Types (res : gmap nat string * string).

Lemma star_loop_transparent step greedy :
  transparent step ->
  forall fuel, transparent (fun s caps k => star_loop step greedy k fuel s caps).
Proof.
  intros Hstep fuel. induction fuel as [|fuel IH]; intros s caps k res; cbn [star_loop].
  - intros E. exists s. exact E.
  - assert (Again :
      step s caps
        (fun s' caps' =>
           if String.length s' <? String.length s
           then star_loop step greedy k fuel s' caps' else None) = Some res ->
      exists s', k s' caps = Some res).
    { intros E. apply Hstep in E as [s1 E].
      destruct (String.length s1 <? String.length s); [|discriminate].
      apply IH in E. exact E. }
    destruct greedy; intros [E|[_ E]]%orelse_some; eauto.
Qed.

Lemma repeat_loop_transparent step :
  transparent step -> forall n, transparent (fun s caps k => repeat_loop step k n s caps).
Proof.
  intros Hstep n. induction n as [|n IH]; intros s caps k res; cbn [repeat_loop].
  - intros E. exists s. exact E.
  - intros E. apply Hstep in E as [s1 E]. apply IH in E. exact E.
Qed.

(** An expression without groups leaves the captures alone. *)
Lemma plain_transparent (r : regex) : plain r = true -> transparent (matcher r).
Proof.
  induction r as [w|p|r1 IH1 r2 IH2|r1 IH1 r2 IH2|greedy r IH|n r IH|i r IH];
    cbn [plain]; intros Hp s caps k res; cbn [matcher]; try discriminate.
  - destruct (strip w s) as [s'|]; [|discriminate]. eauto.
  - destruct s as [|c s]; [discriminate|]. destruct (p c); [|discriminate]. eauto.
  - apply andb_prop in Hp as [H1 H2]. intros E.
    apply (IH1 H1) in E as [s1 E]. apply (IH2 H2) in E. exact E.
  - apply andb_prop in Hp as [H1 H2].
    intros [E|[_ E]]%orelse_some; [apply (IH1 H1) in E | apply (IH2 H2) in E]; exact E.
  - apply (star_loop_transparent (matcher r) greedy (IH Hp)).
  - apply (repeat_loop_transparent (matcher r) (IH Hp)).
Qed.

Lemma seq_plain r1 r2 s caps k res :
  plain r1 = true ->
  matcher (Seq r1 r2) s caps k = Some res ->
  exists s', matcher r2 s' caps k = Some res.
Proof. intros Hp E. rewrite matcher_seq in E. apply (plain_transparent r1 Hp) in E. exact E. Qed.

(** What a greedy star over a class took is text of the class. *)
Lemma star_class_taken p greedy k fuel s caps res :
  star_loop (matcher (Class p)) greedy k fuel s caps = Some res ->
  exists m s', s = m +:+ s' /\ all p m = true /\ k s' caps = Some res.
Proof.
  revert s. induction fuel as [|fuel IH]; intros s; cbn [star_loop].
  - intros E. exists EmptyString, s. auto.
  - assert (Again :
      matcher (Class p) s caps
        (fun s' caps' =>
           if String.length s' <? String.length s
           then star_loop (matcher (Class p)) greedy k fuel s' caps' else None) = Some res ->
      exists m s', s = m +:+ s' /\ all p m = true /\ k s' caps = Some res).
    { destruct s as [|c s]; [discriminate|]. rewrite matcher_class.
      destruct (p c) eqn:Hc; [|discriminate].
      destruct (String.length s <? String.length (String c s)); [|discriminate].
      intros E. apply IH in E as (m & s' & -> & Hm & E).
      exists (String c m), s'. cbn [all]. rewrite Hc, Hm. auto. }
    assert (Now : k s caps = Some res ->
      exists m s', s = m +:+ s' /\ all p m = true /\ k s' caps = Some res)
      by (intros E; exists EmptyString, s; auto).
    destruct greedy; intros [E|[_ E]]%orelse_some; auto.
Qed.

Lemma group_star_class i p r2 s caps k res :
  matcher (Seq (Group i (Star true (Class p))) r2) s caps k = Some res ->
  exists m s', all p m = true /\ matcher r2 s' (<[i := m]> caps) k = Some res.
Proof.
  rewrite matcher_seq, matcher_group, matcher_star.
  intros E. apply star_class_taken in E as (m & s' & -> & Hm & E).
  rewrite take_append in E. eauto.
Qed.

Lemma group_plus_class i p r2 s caps k res :
  matcher (Seq (Group i (Plus (Class p))) r2) s caps k = Some res ->
  exists m s',
    m <> EmptyString /\ all p m = true /\ matcher r2 s' (<[i := m]> caps) k = Some res.
Proof.
  rewrite matcher_seq, matcher_group. unfold Plus. rewrite matcher_seq.
  destruct s as [|c s]; [discriminate|]. rewrite matcher_class.
  destruct (p c) eqn:Hc; [|discriminate]. rewrite matcher_star.
  intros E. apply star_class_taken in E as (m & s' & -> & Hm & E).
  rewrite <- append_cons, take_append in E.
  exists (String c m), s'. cbn [all]. rewrite Hc, Hm. split; [discriminate | auto].
Qed.

Lemma group_either i (a b : string) r2 s caps k res :
  matcher (Seq (Group i (Alt (Lit a) (Lit b))) r2) s caps k = Some res ->
  exists m s', (m = a \/ m = b) /\ matcher r2 s' (<[i := m]> caps) k = Some res.
Proof.
  rewrite matcher_seq, matcher_group, matcher_alt. cbn [matcher].
  intros [E|[_ E]]%orelse_some;
    (destruct (strip _ s) as [s'|] eqn:Es; [|discriminate];
     apply strip_spec in Es; subst s; rewrite take_append in E; eauto).
Qed.

Ltac skip_plain H :=
  let s' := fresh "s" in
  apply seq_plain in H as [s' H]; [|reflexivity].

(** The groups of any match of the pattern. *)
Lemma pattern_groups s caps rest :
  matcher pattern s ∅ accept = Some (caps, rest) ->
  shape_ok (info_of caps) = true.
Proof.
  unfold pattern. intros E.
  apply group_either in E as (m1 & t1 & H1 & E).
  do 2 skip_plain E.
  apply group_plus_class in E as (m2 & t2 & N2 & H2 & E).
  do 7 skip_plain E.
  apply group_star_class in E as (m3 & t3 & H3 & E).
  do 5 skip_plain E.
  apply group_star_class in E as (m4 & t4 & H4 & E).
  skip_plain E.
  apply (plain_transparent (Star false field) eq_refl) in E as [t5 E].
  injection E as <- _.
  change (info_of _) with (mkGpgKeyInfo m1 m2 m3 m4).
  unfold shape_ok. cbn [type capabilities fingerprint keygrip].
  rewrite H2, H3, H4.
  apply String.eqb_neq in N2. rewrite N2.
  destruct H1 as [-> | ->]; reflexivity.
Qed.

Lemma exec_groups s caps rest :
  exec s = Some (caps, rest) -> shape_ok (info_of caps) = true.
Proof.
  induction s as [|c s IH]; rewrite exec_unfold;
    destruct (matcher pattern _ ∅ accept) as [[caps' rest']|] eqn:E;
    try discriminate; intros E'.
  - inversion E'; subst. apply pattern_groups in E. exact E.
  - apply IH, E'.
Qed.

(** Whatever the text, every record returned has the type pub or sub, at
    least one capability letter and only capability letters, and a
    fingerprint and a keygrip made of word characters only. *)
Theorem parseGpgKey_shape (rawText : string) :
  forallb shape_ok (parseGpgKey rawText) = true.
Proof.
  unfold parseGpgKey. generalize (S (String.length rawText)) as fuel.
  intros fuel. revert rawText. induction fuel as [|fuel IH]; intros s; [reflexivity|].
  cbn [parse_loop]. destruct (exec s) as [[caps rest]|] eqn:E; [|reflexivity].
  cbn [forallb]. rewrite (exec_groups _ _ _ E), IH. reflexivity.
Qed.
End RecordShape.

(** * Listings of any length *)

Section Listings.

(** A text in which no key record starts, the empty text among them, has
    no records. *)
Theorem parseGpgKey_no_key (rawText : string) :
  clean rawText EmptyString = true -> parseGpgKey rawText = [].
Proof.
  intros H. unfold parseGpgKey. cbn [parse_loop]. rewrite (exec_clean _ H). reflexivity.
Qed.

Lemma parseGpgKey_no_key_witness :
  parseGpgKey EmptyString = [] /\
  parseGpgKey ("gpg: error reading key: No public key" +:+ nl) = [].
Proof. split; apply parseGpgKey_no_key; reflexivity. Defined.

Lemma block_text_length (b : Block) : 1 <= String.length (block_text b).
Proof. unfold block_text. rewrite !length_append. cbn. lia. Qed.

Lemma parse_listing (items : list (string * Block)) (post : string) (fuel : nat) :
  listing_ok items post = true ->
  String.length (listing items post) < fuel ->
  parse_loop fuel (listing items post) = map (fun it => record_of (snd it)) items.
Proof.
  revert fuel. induction items as [|[junk b] items IH]; intros fuel Hok Hfuel.
  - destruct fuel; [lia|]. cbn [listing parse_loop map] in *.
    rewrite (exec_clean _ Hok). reflexivity.
  - cbn [listing_ok] in Hok. apply andb_prop in Hok as [Hok Hrest].
    apply andb_prop in Hok as [Hb Hjunk].
    destruct fuel; [lia|]. cbn [listing parse_loop map snd] in *.
    rewrite (exec_skip junk _ Hjunk), (exec_block b _ Hb), info_of_captures.
    f_equal. apply IH; [exact Hrest|].
    rewrite !length_append in Hfuel. pose proof (block_text_length b). lia.
Qed.

(** A listing of any number of well-formed blocks, with text before each
    of them and behind the last in which no key record starts, is parsed
    into one record per block, in the order of the listing, each with the
    fingerprint and the keygrip of its own block. *)
Theorem parseGpgKey_listing (items : list (string * Block)) (post : string) :
  listing_ok items post = true ->
  parseGpgKey (listing items post) = map (fun it => record_of (snd it)) items.
Proof. intros H. apply parse_listing; [exact H | lia]. Qed.

Lemma parseGpgKey_listing_witness :
  parseGpgKey (listing sample_items nl) =
  [record_of sample_pub; record_of sample_sub; record_of sample_pub].
Proof. apply (parseGpgKey_listing sample_items nl). vm_compute. reflexivity. Defined.

(** Every round of the loop of [parseGpgKey] moves on in the text: what is
    left behind a match is shorter than what the search started from, so
    the loop ends. *)
Theorem exec_moves_on (s rest : string) (caps : gmap nat string) :
  exec s = Some (caps, rest) -> String.length rest < String.length s.
Proof. apply exec_consumes. Qed.

Lemma exec_moves_on_witness :
  String.length (nl : string) < String.length (block_text sample_sub +:+ nl).
Proof.
  apply (exec_moves_on _ _ (captures_of sample_sub)).
  apply exec_block. reflexivity.
Defined.
End Listings.

Section GetKeyInfo.
Context {A : Type}.

(** [getKeyInfo] spawns the listing command once, with its four flags and
    no input.  When the command fails, so does [getKeyInfo], with the same
    error; when it prints a listing of well-formed blocks, the key is
    looked for among the records of the blocks, in their order. *)
Theorem getKeyInfo_on_listing (w : World A) (keyId : string) :
  spawned (snd (getKeyInfo keyId w)) = spawned w ++ [gpg_listing_call] /\
  (forall e, os w (spawned w ++ [gpg_listing_call]) = inl e ->
             getKeyInfo keyId w = (inl e, after_spawn gpg_listing_call w)) /\
  (forall items post,
      os w (spawned w ++ [gpg_listing_call]) = inr (listing items post) ->
      listing_ok items post = true ->
      getKeyInfo keyId w =
        (getKeyInfo_search (map (fun it => record_of (snd it)) items) keyId,
         after_spawn gpg_listing_call w)).
Proof.
  unfold getKeyInfo, bind, textSpawn, after_spawn, gpg_listing_call.
  split; [|split].
  - destruct (os w _) as [e|raw]; reflexivity.
  - intros e E. rewrite E. reflexivity.
  - intros items post E Hok. rewrite E. unfold lift, parseGpgKey.
    rewrite (parse_listing items post _ Hok) by lia. reflexivity.
Qed.
End GetKeyInfo.

Lemma getKeyInfo_on_listing_witness :
  fst (getKeyInfo "89ABCDEF" listing_world) = inr (record_of sample_pub).
Proof.
  rewrite (proj2 (proj2 (getKeyInfo_on_listing listing_world "89ABCDEF"))
             sample_items nl eq_refl eq_refl).
  reflexivity.
Defined.

(** * Records between a key record and the next fingerprint record *)

Section Between.
Implicit Types (s rest : string) (caps : gmap nat string).
Implicit Types (k : string -> gmap nat string -> option (gmap nat string * string)).
Implicit Types (res : gmap nat string * string).

Lemma join_fields_app (a b : list string) :
  join_fields (a ++ b) = join_fields a +:+ join_fields b.
Proof.
  induction a as [|f a IH]; [reflexivity|].
  cbn [app join_fields]. rewrite IH, !append_assoc. reflexivity.
Qed.

Lemma all_append p (a b : string) : all p (a +:+ b) = all p a && all p b.
Proof.
  induction a as [|c a IH]; [reflexivity|].
  rewrite append_cons. cbn [all]. rewrite IH, andb_assoc. reflexivity.
Qed.

(** What follows the lazy fields of the key record fails wherever no
    fingerprint record starts on a new line. *)
Lemma fingerprint_needed R k s caps :
  starts_fpr s = false ->
  matcher (Seq (Lit nl) (Seq (Alt (Lit "fpr") (Lit "fp2")) (Seq (Lit ":") R))) s caps k
  = None.
Proof.
  unfold starts_fpr. intros H.
  assert (H1 : strip (nl +:+ "fpr" +:+ ":") s = None)
    by (change (nl +:+ "fpr" +:+ ":") with (nl +:+ "fpr:");
        destruct (strip (nl +:+ "fpr:") s); [discriminate | reflexivity]).
  assert (H2 : strip (nl +:+ "fp2" +:+ ":") s = None)
    by (change (nl +:+ "fp2" +:+ ":") with (nl +:+ "fp2:");
        destruct (strip (nl +:+ "fpr:") s), (strip (nl +:+ "fp2:") s);
        discriminate || reflexivity).
  rewrite !strip_app in H1, H2.
  rewrite matcher_seq. cbn [matcher].
  destruct (strip nl s) as [s1|]; [|reflexivity].
  cbv beta match in H1, H2. rewrite strip_app in H1, H2. unfold orelse.
  destruct (strip "fpr" s1) as [s2|]; [rewrite H1|];
    (destruct (strip "fp2" s1) as [s3|]; [rewrite H2|]; reflexivity).
Qed.

(** The lazy fields run over every piece in front of which no fingerprint
    record starts. *)
Lemma lazy_pieces (segs : list string) rest caps k fuel res :
  (forall s c, starts_fpr s = false -> k s c = None) ->
  passable segs rest = true ->
  length segs <= fuel ->
  k rest caps = Some res ->
  star_loop (matcher field) false k fuel (join_fields segs +:+ rest) caps = Some res.
Proof.
  intros Hfail. revert fuel. induction segs as [|t segs IH]; intros fuel Hpass Hfuel Hk.
  - apply star_lazy_now. exact Hk.
  - cbn [passable] in Hpass. apply andb_prop in Hpass as [Hpass Hsegs].
    apply andb_prop in Hpass as [Hhere Ht]. apply negb_true_iff in Hhere.
    destruct fuel as [|fuel]; [cbn in Hfuel; lia|].
    cbn [star_loop]. apply orelse_right; [apply Hfail, Hhere|].
    cbn [join_fields]. rewrite !append_assoc.
    apply matcher_field; [exact Ht|].
    replace (String.length (join_fields segs +:+ rest) <?
             String.length (t +:+ ":" +:+ join_fields segs +:+ rest))
      with true
      by (symmetry; apply Nat.ltb_lt; rewrite !length_append; cbn; lia).
    apply IH; auto. cbn in Hfuel. lia.
Qed.

Lemma strip_nl_none (f rest : string) :
  without LF f = true -> strip nl (f +:+ ":" +:+ rest) = None.
Proof. apply strip_nl_field. Qed.

Lemma starts_fpr_field (f rest : string) :
  without LF f = true -> starts_fpr (f +:+ ":" +:+ rest) = false.
Proof.
  intros Hf. unfold starts_fpr. rewrite !strip_app, (strip_nl_field f rest Hf). reflexivity.
Qed.

(** A name closed by its colon does not start with another name and its
    colon. *)
Lemma strip_other_name (w name rest : string) :
  all not_colon w = true -> all not_colon name = true -> name <> w ->
  strip (w +:+ ":") (name +:+ ":" +:+ rest) = None.
Proof.
  revert name. induction w as [|a w IH]; intros name Hw Hname Hne.
  - destruct name as [|c name]; [congruence|].
    cbn [all] in Hname. apply andb_prop in Hname as [Hc _].
    unfold not_colon in Hc. apply negb_true_iff in Hc.
    rewrite append_empty_l, append_cons.
    change (strip ":" (String c (name +:+ ":" +:+ rest)))
      with (if Ascii.eqb ":" c then strip EmptyString (name +:+ ":" +:+ rest) else None).
    rewrite Ascii.eqb_sym, Hc. reflexivity.
  - cbn [all] in Hw. apply andb_prop in Hw as [Ha Hw].
    unfold not_colon in Ha. apply negb_true_iff in Ha.
    rewrite append_cons. destruct name as [|c name].
    + rewrite append_empty_l.
      change (strip (String a (w +:+ ":")) (":" +:+ rest))
        with (if Ascii.eqb a ":" then strip (w +:+ ":") rest else None).
      rewrite Ha. reflexivity.
    + cbn [all] in Hname. apply andb_prop in Hname as [_ Hname].
      rewrite append_cons. cbn [strip].
      destruct (Ascii.eqb_spec a c) as [->|]; [|reflexivity].
      apply IH; auto. congruence.
Qed.

Lemma starts_fpr_name (name rest : string) :
  all not_colon name = true -> name <> "fpr" -> name <> "fp2" ->
  starts_fpr (nl +:+ name +:+ ":" +:+ rest) = false.
Proof.
  intros Hname N1 N2. unfold starts_fpr.
  change (nl +:+ "fpr:") with (nl +:+ "fpr" +:+ ":").
  change (nl +:+ "fp2:") with (nl +:+ "fp2" +:+ ":").
  rewrite !(strip_app nl), !strip_append.
  rewrite (strip_other_name "fpr"), (strip_other_name "fp2"); auto.
Qed.

Lemma passable_fields (fs : list string) rest :
  forallb field_text fs = true -> passable fs rest = true.
Proof.
  induction fs as [|f fs IH]; [reflexivity|].
  cbn [forallb passable join_fields]. intros [Hf Hfs]%andb_prop.
  apply andb_prop in Hf as [Hcolon Hfeed].
  rewrite !append_assoc, (starts_fpr_field f _ Hfeed), Hcolon, (IH Hfs). reflexivity.
Qed.

Lemma passable_app (a b : list string) rest :
  passable a (join_fields b +:+ rest) = true -> passable b rest = true ->
  passable (a ++ b) rest = true.
Proof.
  induction a as [|t a IH]; [auto|].
  cbn [app passable]. intros [Ht Ha]%andb_prop Hb.
  rewrite (IH Ha Hb), andb_true_r.
  change (t :: a ++ b) with ((t :: a) ++ b).
  rewrite join_fields_app, append_assoc. exact Ht.
Qed.

Lemma pieces_join (lines : list (list string)) :
  forallb other_record lines = true -> join_fields (pieces lines) = records lines.
Proof.
  induction lines as [|fs lines IH]; [reflexivity|].
  cbn [forallb]. intros [Hfs Hlines]%andb_prop.
  destruct fs as [|name fs]; [discriminate|].
  cbn [pieces records join_fields]. rewrite join_fields_app, (IH Hlines), !append_assoc.
  reflexivity.
Qed.

Lemma passable_pieces (lines : list (list string)) rest :
  forallb other_record lines = true -> passable (pieces lines) rest = true.
Proof.
  induction lines as [|fs lines IH]; [reflexivity|].
  cbn [forallb]. intros [Hfs Hlines]%andb_prop.
  destruct fs as [|name fs]; [discriminate|].
  cbn [other_record forallb] in Hfs.
  apply andb_prop in Hfs as [Hnames Hfs]. apply andb_prop in Hfs as [Hname Hfs].
  apply andb_prop in Hnames as [N1 N2].
  apply negb_true_iff, String.eqb_neq in N1. apply negb_true_iff, String.eqb_neq in N2.
  apply andb_prop in Hname as [Hcolon _].
  cbn [pieces passable join_fields].
  rewrite !append_assoc, (starts_fpr_name name _ Hcolon N1 N2).
  rewrite all_append, Hcolon. cbn [negb andb].
  apply passable_app; [apply passable_fields, Hfs | apply IH, Hlines].
Qed.

Ltac lit := rewrite matcher_seq, matcher_lit.

(** The pattern matches from a key record, over any records that are not
    fingerprint records, to the colon behind the keygrip of the next
    fingerprint and keygrip records. *)
Lemma match_block_between (b : Block) (between : list (list string)) (rest : string) :
  well_formed b = true ->
  forallb other_record between = true ->
  matcher pattern (key_line b +:+ records between +:+ fingerprint_lines b +:+ rest)
    ∅ accept = Some (captures_of b, rest).
Proof.
  destruct b as [kd kf fl more ktail tag ff fp ftail gf gp].
  unfold well_formed, key_line, fingerprint_lines, captures_of.
  cbv [kind key_fields flags flags_more key_tail fpr_tag fpr_fields
       fpr fpr_tail grp_fields grp].
  intros H Hbetween. repeat (apply andb_prop in H as [H ?]).
  repeat match goal with
         | E : (length _ =? _) = true |- _ => apply Nat.eqb_eq in E
         end.
  assert (Hfl : fl <> EmptyString)
    by (apply String.eqb_neq, negb_true_iff; assumption).
  assert (Hkd : kd = "pub" \/ kd = "sub")
    by (apply orb_prop in H as [E|E]; apply String.eqb_eq in E; auto).
  assert (Htag : tag = "fpr" \/ tag = "fp2").
  { match goal with
    | E : (_ || _) = true |- _ =>
        apply orb_prop in E as [E|E]; apply String.eqb_eq in E; auto
    end. }
  clear H.
  rewrite <- (pieces_join between Hbetween).
  rewrite !append_assoc.
  rewrite <- (append_assoc (join_fields ktail) (join_fields (pieces between))).
  rewrite <- join_fields_app.
  assert (Hpass : forall X, passable (ktail ++ pieces between) X = true).
  { intros X. apply passable_app;
      [apply passable_fields; assumption | apply passable_pieces, Hbetween]. }
  unfold pattern.
  assert (Hfeed :
    forall R (k : string -> gmap nat string -> option (gmap nat string * string)) s c,
      strip nl s = None ->
      (fun s' caps' => matcher (Seq (Lit nl) R) s' caps' k) s c = None).
  { intros R k s c E. cbv beta. rewrite matcher_seq. apply matcher_lit_fail, E. }
  rewrite matcher_seq, matcher_group, matcher_alt.
  destruct Hkd as [-> | ->];
    [apply orelse_left | apply orelse_right; [reflexivity|]];
    (rewrite matcher_lit; cbv beta; rewrite take_append;
     lit;
     rewrite matcher_seq, matcher_repeat;
     apply matcher_fields; [assumption | assumption | cbv beta];
     rewrite matcher_seq, matcher_group;
     apply matcher_plus_class;
       [exact Hfl | assumption | apply stops_append; [assumption | reflexivity]
       | cbv beta; rewrite take_append];
     rewrite matcher_seq;
     apply matcher_star_class; [assumption | reflexivity |];
     lit;
     rewrite matcher_seq, matcher_star;
     apply lazy_pieces;
       [intros s c; apply fingerprint_needed | apply Hpass
       | rewrite length_append; pose proof (join_fields_length (ktail ++ pieces between)
                                             EmptyString) as L;
         rewrite append_empty_r in L; lia
       | cbv beta];
     lit;
     rewrite matcher_seq, matcher_alt;
     destruct Htag as [-> | ->];
       [apply orelse_left | apply orelse_right; [reflexivity|]];
       (rewrite matcher_lit;
        lit;
        rewrite matcher_seq, matcher_repeat;
        apply matcher_fields; [assumption | assumption | cbv beta];
        rewrite matcher_seq, matcher_group;
        apply matcher_star_class;
          [assumption | reflexivity | cbv beta; rewrite take_append];
        lit;
        rewrite matcher_seq;
        apply matcher_lazy_fields; [assumption | apply Hfeed | cbv beta];
        lit;
        lit;
        rewrite matcher_seq, matcher_repeat;
        apply matcher_fields; [assumption | assumption | cbv beta];
        rewrite matcher_seq, matcher_group;
        apply matcher_star_class;
          [assumption | reflexivity | cbv beta; rewrite take_append];
        lit;
        rewrite matcher_star; apply star_lazy_now; reflexivity)).
Qed.

(** Block boundaries are not enforced.  A key record followed by records
    that are not fingerprint records (user ids, or the key records of
    subkeys) and then by a fingerprint and a keygrip record gives one
    record: the type and capabilities of the first key record with the
    fingerprint and keygrip that follow, whichever key they belong to; the
    records in between give nothing. *)
Theorem parseGpgKey_skips_records (b : Block) (between : list (list string))
  (post : string) :
  well_formed b = true ->
  forallb other_record between = true ->
  clean post EmptyString = true ->
  parseGpgKey (key_line b +:+ records between +:+ fingerprint_lines b +:+ post) =
  [record_of b].
Proof.
  intros Hb Hbetween Hpost. unfold parseGpgKey.
  set (text := key_line b +:+ records between +:+ fingerprint_lines b +:+ post).
  rewrite (parse_loop_fuel _ (2 + String.length text)) by lia.
  subst text. cbn [Nat.add parse_loop].
  rewrite exec_unfold, (match_block_between b between post Hb Hbetween).
  rewrite (exec_clean post Hpost), info_of_captures. reflexivity.
Qed.

Lemma parseGpgKey_skips_records_witness :
  parseGpgKey
    (key_line sample_mixed +:+
     records [["uid"; "u"; ""; ""; ""; "1590000000"; ""; "HASH"; ""; "Name"]; sample_fields]
     +:+ fingerprint_lines sample_mixed +:+ nl) =
  [mkGpgKeyInfo "pub" "sc" "89ABCDEF0123456789ABCDEF0123456789ABCDEF"
     "4444555566667777888899990000AAAABBBBCCCC"].
Proof.
  apply (parseGpgKey_skips_records sample_mixed
           [["uid"; "u"; ""; ""; ""; "1590000000"; ""; "HASH"; ""; "Name"]; sample_fields]
           nl); reflexivity.
Defined.
End Between.

(** * Status refreshes *)

Section Sync.
Import Extension.
Context {A U : Type} `{AssuanClient A}.

Lemma equal_spec (a b : KeyStatusEvent) : equal a b = true <-> a = b.
Proof.
  destruct a as [k1 l1], b as [k2 l2]. unfold equal. cbn.
  rewrite andb_true_iff, String.eqb_eq, Bool.eqb_true_iff.
  split; [intros [-> ->]; reflexivity | intros E; inversion E; auto].
Qed.

Lemma isKeyUnlocked_run (w : World A) (keygrip : string) :
  isKeyUnlocked keygrip w =
    (match os w (spawned w ++ [keyinfo_call keygrip]) with
     | inl e => inl e
     | inr outputs => isKeyUnlocked_outputs outputs
     end,
     after_spawn (keyinfo_call keygrip) w).
Proof.
  unfold isKeyUnlocked, bind, textSpawn, Gpg.lift, keyinfo_call, after_spawn.
  destruct (os w _) as [e|outputs]; reflexivity.
Qed.

Lemma isKeyUnlocked_answers (w : World A) (key : GpgKeyInfo) (b : bool) :
  answers w key b ->
  isKeyUnlocked (keygrip key) w = (inr b, after_spawn (keyinfo_call (keygrip key)) w).
Proof.
  intros [outputs [E P]]. rewrite isKeyUnlocked_run, E, P. reflexivity.
Qed.

Lemma unchanged_spec (last : option KeyStatusEvent) (event : KeyStatusEvent) :
  unchanged last event = true <-> last = Some event.
Proof.
  destruct last as [l|]; cbn; [|split; discriminate].
  rewrite equal_spec. split; [intros ->; reflexivity | intros E; inversion E; auto].
Qed.

Lemma unchanged_true (last : option KeyStatusEvent) (event : KeyStatusEvent) :
  last = Some event -> unchanged last event = true.
Proof. apply unchanged_spec. Qed.

Lemma unchanged_false (last : option KeyStatusEvent) (event : KeyStatusEvent) :
  last <> Some event -> unchanged last event = false.
Proof.
  intros N. destruct (unchanged last event) eqn:E; [|reflexivity].
  apply unchanged_spec in E. contradiction.
Qed.

(** The refresh by cases of the answer and of the last event. *)
Lemma syncStatus_run (st : Ext A U) (folder : string) (key : GpgKeyInfo) :
  watching st folder key ->
  let q := isKeyUnlocked (keygrip key) (world st) in
  syncStatus st =
    match fst q with
    | inr b =>
        if unchanged (lastEvent (manager st)) (event_of key b)
        then (inr tt, mkExt (manager st) (ui st) (snd q))
        else
          (inr tt,
           mkExt
             (mkKeyStatusManager (activateFolder (manager st)) (Some (event_of key b))
                (keyOfFolders (manager st)) (disposed (manager st))
                (updateFunctions (manager st)) (syncInterval (manager st)))
             (fold_left (fun u update => update (event_of key b) u)
                (updateFunctions (manager st)) (ui st))
             (mkWorld (os (snd q)) (connect (snd q)) (spawned (snd q)) (sessions (snd q))
                (output (snd q) ++ notice (event_of key b))))
    | inl (NotAnError v) => (inl (NotAnError v), mkExt (manager st) (ui st) (snd q))
    | inl e =>
        (inr tt,
         mkExt (manager st) (ui st)
           (snd (log ("Fail to check key status: " +:+ message e) (snd q))))
    end.
Proof.
  intros [F [N K]] q. subst q. unfold syncStatus. rewrite F.
  destruct folder as [|c folder]; [congruence|]. rewrite K.
  unfold bind at 1. unfold try_catch, bind at 1. unfold gpg at 1.
  destruct (isKeyUnlocked (keygrip key) (world st)) as [[e|b] w]; cbn [fst snd].
  - destruct e; reflexivity.
  - cbn. fold (event_of key b). unfold unchanged.
    destruct (lastEvent (manager st)) as [last|] eqn:L.
    + destruct (equal (event_of key b) last) eqn:E; cbn [negb].
      * reflexivity.
      * cbn. rewrite <- app_assoc, ?F. reflexivity.
    + cbn. rewrite <- app_assoc, ?F. reflexivity.
Qed.

(** Outside the watched case the refresh does nothing. *)
Lemma syncStatus_idle (st : Ext A U) :
  (forall folder key, ~ watching st folder key) -> syncStatus st = (inr tt, st).
Proof.
  intros N. unfold syncStatus.
  destruct (activateFolder (manager st)) as [[|c folder]|] eqn:F; try reflexivity.
  destruct (keyOfFolders (manager st) !! String c folder) as [key|] eqn:K;
    [|reflexivity].
  exfalso. apply (N (String c folder) key). repeat split; auto; discriminate.
Qed.

Lemma watching_dec (st : Ext A U) :
  (exists folder key, watching st folder key) \/
  (forall folder key, ~ watching st folder key).
Proof.
  destruct (activateFolder (manager st)) as [folder|] eqn:F.
  - destruct (keyOfFolders (manager st) !! folder) as [key|] eqn:K.
    + destruct folder as [|c folder].
      * right. intros f k [F' [N' K']]. congruence.
      * left. exists (String c folder), key. repeat split; auto; discriminate.
    + right. intros f k [F' [N' K']]. congruence.
  - right. intros f k [F' [N' K']]. congruence.
Qed.

(** The refresh writes no field of the manager but the last event, and
    leaves the environment as it is. *)
Lemma syncStatus_frame (st : Ext A U) :
  let st' := snd (syncStatus st) in
  same_settings (manager st) (manager st') /\
  os (world st') = os (world st) /\ connect (world st') = connect (world st).
Proof.
  destruct (watching_dec st) as [[folder [key W]]|N].
  - cbv zeta. rewrite (syncStatus_run st folder key W).
    rewrite isKeyUnlocked_run. cbn [fst snd].
    destruct (os (world st) _) as [e|outputs].
    + destruct e; cbn; repeat split.
    + destruct (isKeyUnlocked_outputs outputs) as [e|b].
      * destruct e; cbn; repeat split.
      * destruct (unchanged _ _); cbn; repeat split.
  - cbv zeta. rewrite (syncStatus_idle st N). repeat split.
Qed.

(** A refresh whose answer differs from the last event, or the first one
    to get an answer, records the new event, logs the notice after what
    was logged before, and runs every update function once, in the order
    of registration, each on the interface the one before left. *)
Theorem syncStatus_notifies_change (st : Ext A U) (folder : string) (key : GpgKeyInfo)
  (b : bool) :
  watching st folder key ->
  answers (world st) key b ->
  lastEvent (manager st) <> Some (event_of key b) ->
  let st' := snd (syncStatus st) in
  fst (syncStatus st) = inr tt /\
  lastEvent (manager st') = Some (event_of key b) /\
  ui st' = fold_left (fun u update => update (event_of key b) u)
             (updateFunctions (manager st)) (ui st) /\
  output (world st') = output (world st) ++ notice (event_of key b) /\
  spawned (world st') = spawned (world st) ++ [keyinfo_call (keygrip key)].
Proof.
  intros W Q L. cbv zeta. rewrite (syncStatus_run st folder key W).
  rewrite (isKeyUnlocked_answers _ _ _ Q). cbn [fst snd].
  rewrite (unchanged_false _ _ L). cbn. auto.
Qed.

(** A refresh whose answer is the last event over again notifies nobody:
    the manager, the interface and the log stay as they were, and the
    one thing done is the status query. *)
Theorem syncStatus_silent_when_unchanged (st : Ext A U) (folder : string)
  (key : GpgKeyInfo) (b : bool) :
  watching st folder key ->
  answers (world st) key b ->
  lastEvent (manager st) = Some (event_of key b) ->
  syncStatus st =
    (inr tt,
     mkExt (manager st) (ui st) (after_spawn (keyinfo_call (keygrip key)) (world st))).
Proof.
  intros W Q L. rewrite (syncStatus_run st folder key W).
  rewrite (isKeyUnlocked_answers _ _ _ Q). cbn [fst snd].
  rewrite (unchanged_true _ _ L). reflexivity.
Qed.

(** Two refreshes in a row that get the same answer notify at most once:
    whatever the first one did, the second leaves the manager, the
    interface and the log as the first left them. *)
Theorem syncStatus_twice (st : Ext A U) (folder : string) (key : GpgKeyInfo) (b : bool) :
  watching st folder key ->
  answers (world st) key b ->
  answers (after_spawn (keyinfo_call (keygrip key)) (world st)) key b ->
  let st1 := snd (syncStatus st) in
  syncStatus st1 =
    (inr tt,
     mkExt (manager st1) (ui st1) (after_spawn (keyinfo_call (keygrip key)) (world st1))).
Proof.
  intros W Q1 Q2. cbv zeta.
  assert (S1 : exists m u out,
             snd (syncStatus st) =
               mkExt m u
                 (mkWorld (os (world st)) (connect (world st))
                    (spawned (world st) ++ [keyinfo_call (keygrip key)])
                    (sessions (world st)) out) /\
             lastEvent m = Some (event_of key b) /\
             activateFolder m = activateFolder (manager st) /\
             keyOfFolders m = keyOfFolders (manager st)).
  { rewrite (syncStatus_run st folder key W).
    rewrite (isKeyUnlocked_answers _ _ _ Q1). cbn [fst snd].
    destruct (unchanged _ _) eqn:D.
    - apply unchanged_spec in D. cbn [snd].
      exists (manager st), (ui st), (output (world st)). auto.
    - cbn [snd]. eexists _, _, _. split; [reflexivity|]. cbn. auto. }
  destruct S1 as [m [u [out [E [L [F K]]]]]]. rewrite E.
  destruct W as [WF [WN WK]].
  assert (W1 : watching
                 (mkExt m u
                    (mkWorld (os (world st)) (connect (world st))
                       (spawned (world st) ++ [keyinfo_call (keygrip key)])
                       (sessions (world st)) out)) folder key).
  { repeat split; cbn; congruence. }
  rewrite (syncStatus_run _ folder key W1).
  assert (Q : answers
                (mkWorld (os (world st)) (connect (world st))
                   (spawned (world st) ++ [keyinfo_call (keygrip key)])
                   (sessions (world st)) out) key b).
  { destruct Q2 as [o [E2 P2]]. exists o. split; [exact E2 | exact P2]. }
  cbn [world]. rewrite (isKeyUnlocked_answers _ _ _ Q). cbn [fst snd manager ui world].
  rewrite (unchanged_true _ _ L). reflexivity.
Qed.

(** A status query that fails never changes the manager or the
    interface.  When what was thrown is an error object the refresh
    still returns normally and the log gains the one line that carries
    the message; anything else thrown is passed on and nothing is
    logged. *)
Theorem syncStatus_query_failure (st : Ext A U) (folder : string) (key : GpgKeyInfo)
  (e : Error) :
  watching st folder key ->
  fst (isKeyUnlocked (keygrip key) (world st)) = inl e ->
  let st' := snd (syncStatus st) in
  manager st' = manager st /\ ui st' = ui st /\
  match e with
  | NotAnError _ =>
      fst (syncStatus st) = inl e /\ output (world st') = output (world st)
  | _ =>
      fst (syncStatus st) = inr tt /\
      output (world st') =
        output (world st) ++ ["Fail to check key status: " +:+ message e]
  end.
Proof.
  intros W Q. cbv zeta. rewrite (syncStatus_run st folder key W). rewrite Q.
  rewrite isKeyUnlocked_run. cbn [snd].
  destruct e; cbn; auto.
Qed.

(** Whatever the state, the refresh rejects only with something that is
    not an error object, which it got from the status query. *)
Theorem syncStatus_rejects_only_non_errors (st : Ext A U) (e : Error) :
  fst (syncStatus st) = inl e ->
  exists v folder key,
    e = NotAnError v /\ watching st folder key /\
    fst (isKeyUnlocked (keygrip key) (world st)) = inl e.
Proof.
  destruct (watching_dec st) as [[folder [key W]]|N].
  - rewrite (syncStatus_run st folder key W).
    destruct (fst (isKeyUnlocked (keygrip key) (world st))) as [e'|b] eqn:Q.
    + destruct e'; cbn; try discriminate.
      intros E. inversion E; subst. eexists _, folder, key. auto.
    + destruct (unchanged _ _); discriminate.
  - rewrite (syncStatus_idle st N). discriminate.
Qed.
End Sync.

Section SyncSamples.
Import Extension.

Lemma sample_watching (answer : list Spawn -> Error + string) :
  watching (sample_ext_on answer) "/repo" sample_key.
Proof.
  split; [reflexivity|]. split; [discriminate|]. apply lookup_singleton_eq.
Qed.

Lemma sample_answers (calls : list Spawn) :
  answers (A := list Response) (mkWorld unlocked_os (fun _ => []) calls [] [])
    sample_key true.
Proof. eexists. split; [reflexivity|]. vm_compute. reflexivity. Qed.

Lemma syncStatus_notifies_change_witness :
  let st' := snd (syncStatus (sample_ext_on unlocked_os)) in
  lastEvent (manager st') = Some (event_of sample_key true) /\
  output (world st') = notice (event_of sample_key true).
Proof.
  destruct (syncStatus_notifies_change (sample_ext_on unlocked_os)
              "/repo" sample_key true (sample_watching _) (sample_answers [])
              ltac:(discriminate))
    as [_ [L [_ [O _]]]].
  split; [exact L | exact O].
Defined.

Lemma syncStatus_silent_when_unchanged_witness :
  syncStatus sample_ext_seen =
    (inr tt,
     mkExt (manager sample_ext_seen) tt
       (after_spawn (keyinfo_call (keygrip sample_key)) (world sample_ext_seen))).
Proof.
  apply (syncStatus_silent_when_unchanged sample_ext_seen "/repo" sample_key true).
  - split; [reflexivity|]. split; [discriminate|]. apply lookup_singleton_eq.
  - apply (sample_answers []).
  - reflexivity.
Defined.

Lemma syncStatus_twice_witness :
  let st1 := snd (syncStatus (sample_ext_on unlocked_os)) in
  syncStatus st1 =
    (inr tt,
     mkExt (manager st1) (ui st1)
       (after_spawn (keyinfo_call (keygrip sample_key)) (world st1))).
Proof.
  apply (syncStatus_twice (sample_ext_on unlocked_os) "/repo" sample_key true).
  - apply sample_watching.
  - apply (sample_answers []).
  - apply (sample_answers [keyinfo_call (keygrip sample_key)]).
Defined.

Lemma syncStatus_query_failure_witness :
  let r := syncStatus (sample_ext_on failing_os) in
  fst r = inr tt /\
  manager (snd r) = manager (sample_ext_on failing_os) /\
  output (world (snd r)) =
    ["Fail to check key status: spawn gpg-connect-agent ENOENT"].
Proof.
  destruct (syncStatus_query_failure (sample_ext_on failing_os) "/repo" sample_key
              (JsError "spawn gpg-connect-agent ENOENT") (sample_watching _) eq_refl)
    as [M [_ [R O]]].
  split; [exact R|]. split; [exact M | exact O].
Defined.

Lemma syncStatus_rejects_only_non_errors_witness :
  exists v folder key,
    NotAnError "cancelled" = NotAnError v /\
    watching (sample_ext_on cancelling_os) folder key /\
    fst (isKeyUnlocked (keygrip key) (world (sample_ext_on cancelling_os))) =
      inl (NotAnError "cancelled").
Proof.
  apply (syncStatus_rejects_only_non_errors (sample_ext_on cancelling_os)
           (NotAnError "cancelled")).
  reflexivity.
Defined.
End SyncSamples.

(** * Sessions of the unlock command *)

Section Sessions.
Import Extension.
Context {A U : Type} `{AssuanClient A}.
Variable trim : string -> string.

Lemma sign_unlock_session (client : A) (keygrip passphrase sha1Hash : string) :
  unlock_session passphrase (trace (snd (sign client keygrip passphrase sha1Hash))).
Proof.
  unfold unlock_session, sign, bind, agent_initialize, try_finally. cbn.
  destruct (initialize client) as [[e|] a]; cbn.
  - split; [left; reflexivity | right; exists e; reflexivity].
  - pose proof (sign_script_passphrase keygrip passphrase sha1Hash
                  (mkConn a [EInitialize None])) as S.
    destruct (quiet_sign_script keygrip passphrase sha1Hash
                (mkConn a [EInitialize None])) as [t [E D]].
    destruct (sign_script keygrip passphrase sha1Hash (mkConn a [EInitialize None]))
      as [r c].
    cbn in *. split.
    + destruct S as [[t' [E' P]]|[t' [E' P]]]; [left | right];
        rewrite E', !sent_app, !payloads_app, P; reflexivity.
    + left. rewrite E. cbn. rewrite disposals_app. cbn. lia.
Qed.

(** One unlock asks once for the socket of the agent and logs nothing of
    its own.  When that call fails the error is passed on and no session
    is opened; otherwise exactly one session is opened, with the client
    behind the trimmed path and for the digest of the empty text, the
    passphrase goes out at most once in it, and it is closed unless it
    never opened. *)
Theorem unlockByKey_session (w : World A) (keygrip passphrase : string) :
  let r := unlockByKey trim keygrip passphrase w in
  spawned (snd r) = spawned w ++ [socket_call] /\
  output (snd r) = output w /\
  match os w (spawned w ++ [socket_call]) with
  | inl e => fst r = inl e /\ sessions (snd r) = sessions w
  | inr path =>
      let s := sign (connect w (trim path)) keygrip passphrase SHA1_EMPTY_DIGEST in
      fst r = fst s /\
      sessions (snd r) = sessions w ++ [trace (snd s)] /\
      unlock_session passphrase (trace (snd s))
  end.
Proof.
  cbv zeta. unfold unlockByKey, getSocketPath, bind, textSpawn, ret, run_sign, socket_call.
  destruct (os w _) as [e|path]; cbn.
  - auto.
  - pose proof (sign_unlock_session (connect w (trim path)) keygrip passphrase
                  SHA1_EMPTY_DIGEST) as S.
    destruct (sign (connect w (trim path)) keygrip passphrase SHA1_EMPTY_DIGEST)
      as [r c].
    cbn in *. auto.
Qed.

Lemma unlockByKey_at_most_one (w : World A) (keygrip passphrase : string) :
  at_most_one_session passphrase w (snd (unlockByKey trim keygrip passphrase w)).
Proof.
  unfold unlockByKey, getSocketPath, bind, textSpawn, ret, run_sign.
  destruct (os w _) as [e|path]; cbn.
  - left. reflexivity.
  - pose proof (sign_unlock_session (connect w (trim path)) keygrip passphrase
                  SHA1_EMPTY_DIGEST) as S.
    destruct (sign (connect w (trim path)) keygrip passphrase SHA1_EMPTY_DIGEST)
      as [r c].
    right. exists (trace c). split; [reflexivity | exact S].
Qed.

Lemma sessions_syncStatus (st : Ext A U) :
  sessions (world (snd (syncStatus st))) = sessions (world st).
Proof. apply (steps_syncStatus st). Qed.

(** One run of the unlock command opens at most one session, whatever
    the state and whatever the agent answers; in that session the
    passphrase goes out at most once, as the only raw data, and the
    session is closed unless it never opened. *)
Theorem unlockCurrentKey_one_session (st : Ext A U) (passphrase : string) :
  at_most_one_session passphrase (world st)
    (world (snd (unlockCurrentKey trim passphrase st))).
Proof.
  unfold unlockCurrentKey.
  destruct (activateFolder (manager st)) as [folder|]; [|left; reflexivity].
  destruct (keyOfFolders (manager st) !! folder) as [theKey|]; [|left; reflexivity].
  unfold bind at 1.
  pose proof (sessions_syncStatus st) as S1.
  destruct (syncStatus st) as [[e|[]] st1]; cbn [snd] in *; [left; exact S1|].
  unfold bind at 1.
  pose proof (steps_gpg (U := U) (isKeyUnlocked (keygrip theKey))
                (steps_isKeyUnlocked _) st1) as [S2 _].
  destruct (gpg (isKeyUnlocked (keygrip theKey)) st1) as [[e|[|]] st2];
    cbn [snd] in *.
  - left. congruence.
  - left. cbn. congruence.
  - unfold bind at 1. cbn [logger_log gpg log fst snd world manager ui].
    unfold bind at 1. unfold gpg at 1. cbn [world manager ui].
    pose proof (unlockByKey_at_most_one
                  (mkWorld (os (world st2)) (connect (world st2)) (spawned (world st2))
                     (sessions (world st2))
                     (output (world st2) ++
                        ["Try to unlock current key: " +:+ fingerprint theKey]))
                  (keygrip theKey) passphrase) as E.
    destruct (unlockByKey trim (keygrip theKey) passphrase _) as [[e|[]] w3];
      cbn [snd sessions] in *.
    + unfold at_most_one_session in *. cbn [sessions world] in *.
      destruct E as [E|[t [E P]]]; [left | right; exists t; split; [|exact P]];
        congruence.
    + pose proof (sessions_syncStatus (mkExt (manager st2) (ui st2) w3)) as S3.
      unfold at_most_one_session in *. cbn [sessions world] in *.
      destruct E as [E|[t [E P]]]; [left | right; exists t; split; [|exact P]];
        congruence.
Qed.
End Sessions.

(** * Looking a key up before asking the agent *)

Section KeyId.
Context {A : Type}.

Lemma getKeyInfo_search_found (infos : list GpgKeyInfo) (keyId : string)
  (info : GpgKeyInfo) :
  getKeyInfo_search infos keyId = inr info ->
  In info infos /\ contains (fingerprint info) keyId.
Proof.
  induction infos as [|i infos IH]; cbn [getKeyInfo_search]; [discriminate|].
  destruct (includes (fingerprint i) keyId) eqn:E.
  - intros X. inversion X; subst. split; [left; reflexivity|].
    apply includes_spec, E.
  - intros X. destruct (IH X) as [I C]. split; [right; exact I | exact C].
Qed.

Lemma getKeyInfo_search_none (infos : list GpgKeyInfo) (keyId : string) (e : Error) :
  getKeyInfo_search infos keyId = inl e ->
  e = KeyNotFound keyId /\
  forall info, In info infos -> ~ contains (fingerprint info) keyId.
Proof.
  induction infos as [|i infos IH]; cbn [getKeyInfo_search].
  - intros X. inversion X. split; [reflexivity|]. intros info [].
  - destruct (includes (fingerprint i) keyId) eqn:E; [discriminate|].
    intros X. destruct (IH X) as [-> N]. split; [reflexivity|].
    intros info [<-|I]; [|apply N, I].
    intros C. apply includes_spec in C. congruence.
Qed.

(** The status of a key given by identifier: the listing command runs
    first.  When it fails, or when no record of the listing has a
    fingerprint that contains the identifier, the error is passed on and
    the agent is not asked at all; otherwise the agent is asked once, about
    the keygrip of a record of the listing whose fingerprint contains the
    identifier, and its answer is the result. *)
Theorem isKeyIdUnlocked_queries_found_key (w : World A) (keyId : string) :
  let r := isKeyIdUnlocked keyId w in
  match os w (spawned w ++ [gpg_listing_call]) with
  | inl e => r = (inl e, after_spawn gpg_listing_call w)
  | inr raw =>
      (r = (inl (KeyNotFound keyId), after_spawn gpg_listing_call w) /\
       forall info, In info (parseGpgKey raw) -> ~ contains (fingerprint info) keyId) \/
      (exists info,
         In info (parseGpgKey raw) /\ contains (fingerprint info) keyId /\
         r = isKeyUnlocked (keygrip info) (after_spawn gpg_listing_call w) /\
         spawned (snd r) =
           spawned w ++ [gpg_listing_call; keyinfo_call (keygrip info)])
  end.
Proof.
  cbv zeta.
  assert (E : isKeyIdUnlocked keyId w =
              match os w (spawned w ++ [gpg_listing_call]) with
              | inl e => (inl e, after_spawn gpg_listing_call w)
              | inr raw =>
                  match getKeyInfo_search (parseGpgKey raw) keyId with
                  | inl e => (inl e, after_spawn gpg_listing_call w)
                  | inr info =>
                      isKeyUnlocked (keygrip info) (after_spawn gpg_listing_call w)
                  end
              end).
  { unfold isKeyIdUnlocked, getKeyInfo, bind, textSpawn, lift, gpg_listing_call,
      after_spawn.
    destruct (os w _) as [e|raw]; [reflexivity|].
    destruct (getKeyInfo_search (parseGpgKey raw) keyId); reflexivity. }
  rewrite E. clear E.
  destruct (os w _) as [e|raw]; [reflexivity|].
  destruct (getKeyInfo_search (parseGpgKey raw) keyId) as [e|info] eqn:S.
  - left. apply getKeyInfo_search_none in S. destruct S as [-> N]. auto.
  - right. apply getKeyInfo_search_found in S. destruct S as [I C].
    exists info. repeat split; auto.
    unfold isKeyUnlocked, bind, textSpawn, keyinfo_call, after_spawn. cbn.
    destruct (os w _); cbn; rewrite <- app_assoc; reflexivity.
Qed.
End KeyId.

(** * Folders *)

Section FolderChanges.
Import Extension.
Context {A U : Type} `{AssuanClient A}.
Variable git_isSigningActivated : string -> M (World A) bool.
Variable git_getSigningKey : string -> M (World A) string.

Lemma is_folder_refl (folder : string) : is_folder (Some folder) folder = true.
Proof. apply String.eqb_refl. Qed.

Lemma is_folder_spec (current : option string) (folder : string) :
  is_folder current folder = true -> current = Some folder.
Proof.
  destruct current as [f|]; cbn; [|discriminate].
  intros E. apply String.eqb_eq in E. congruence.
Qed.

Lemma changeActivateFolder_sets (st : Ext A U) (folder : string) :
  activateFolder (manager (snd (changeActivateFolder folder st))) = Some folder.
Proof.
  unfold changeActivateFolder.
  destruct (is_folder (activateFolder (manager st)) folder) eqn:E.
  - apply is_folder_spec, E.
  - unfold bind, logger_log, gpg, log, set_activateFolder. cbn [fst snd manager ui world].
    match goal with
    | |- context [syncStatus ?s] =>
        destruct (syncStatus_frame s) as [[F _] _];
        destruct (syncStatus s) as [r st']
    end.
    cbn [snd] in *. rewrite F. reflexivity.
Qed.

(** Changing to the folder that is active already does nothing at all:
    after any change to [folder], whether its refresh returned or
    rejected, a second change to [folder] logs nothing, asks the agent
    nothing and leaves the state as it is. *)
Theorem changeActivateFolder_idempotent (st : Ext A U) (folder : string) :
  let st1 := snd (changeActivateFolder folder st) in
  changeActivateFolder folder st1 = (inr tt, st1).
Proof.
  cbv zeta. pose proof (changeActivateFolder_sets st folder) as F.
  unfold changeActivateFolder at 1. rewrite F, is_folder_refl. reflexivity.
Qed.

(** Changing to a folder for which no key is kept makes no query and
    notifies nobody: the last event and the interface stay those of the
    folder that was active before. *)
Theorem changeActivateFolder_without_key (st : Ext A U) (folder : string) :
  keyOfFolders (manager st) !! folder = None ->
  let r := changeActivateFolder folder st in
  fst r = inr tt /\
  activateFolder (manager (snd r)) = Some folder /\
  lastEvent (manager (snd r)) = lastEvent (manager st) /\
  ui (snd r) = ui st /\
  spawned (world (snd r)) = spawned (world st).
Proof.
  intros K. cbv zeta. split; [|split; [apply changeActivateFolder_sets|]].
  - unfold changeActivateFolder.
    destruct (is_folder (activateFolder (manager st)) folder); [reflexivity|].
    unfold bind, logger_log, gpg, log, set_activateFolder. cbn [fst snd manager ui world].
    rewrite syncStatus_idle; [reflexivity|].
    intros f k [F' [_ K']]. cbn in F', K'. congruence.
  - unfold changeActivateFolder.
    destruct (is_folder (activateFolder (manager st)) folder); [auto|].
    unfold bind, logger_log, gpg, log, set_activateFolder. cbn [fst snd manager ui world].
    rewrite syncStatus_idle; [cbn; auto|].
    intros f k [F' [_ K']]. cbn in F', K'. congruence.
Qed.

(** A function registered last runs last: on a notification it is applied
    to the interface that the functions registered before it have left.
    Registering calls nothing. *)
Theorem registerUpdateFunction_runs_last (st : Ext A U)
  (update : KeyStatusEvent -> U -> U) (event : KeyStatusEvent) :
  let st1 := snd (registerUpdateFunction (A := A) update st) in
  ui st1 = ui st /\
  updateFunctions (manager st1) = updateFunctions (manager st) ++ [update] /\
  ui (snd (notifyUpdate event st1)) = update event (ui (snd (notifyUpdate event st))).
Proof.
  cbv zeta. unfold registerUpdateFunction, notifyUpdate, bind, logger_log, gpg, log.
  cbn. rewrite fold_left_app. auto.
Qed.

(** Looking up the key of a folder never rejects, whatever the calls
    into git and the listing command do.  It touches no folder but its
    own, and neither the active folder, the last event, the update
    functions nor the interface. *)
Theorem updateFolder_never_rejects (st : Ext A U) (folder : string) :
  let r := updateFolder git_isSigningActivated git_getSigningKey folder st in
  fst r = inr tt /\
  activateFolder (manager (snd r)) = activateFolder (manager st) /\
  lastEvent (manager (snd r)) = lastEvent (manager st) /\
  updateFunctions (manager (snd r)) = updateFunctions (manager st) /\
  ui (snd r) = ui st /\
  forall other, other <> folder ->
    keyOfFolders (manager (snd r)) !! other = keyOfFolders (manager st) !! other.
Proof.
  cbv zeta. unfold updateFolder, try_catch, bind, gpg, logger_log, log, ret,
    set_keyOfFolder.
  destruct (git_isSigningActivated folder (world st)) as [[e|[|]] w1];
    cbn -[getKeyInfo]; auto 7.
  destruct (git_getSigningKey folder w1) as [[e|keyId] w2]; cbn -[getKeyInfo]; auto 7.
  destruct (getKeyInfo keyId w2) as [[e|info] w3]; cbn; auto 7.
  repeat split. intros. apply lookup_insert_ne. congruence.
Qed.

(** The key of a folder changes only when git reports signing as
    activated, hands out a key identifier, and the listing has a record
    whose fingerprint contains that identifier: that record becomes the
    key of the folder, and the log ends with the line that names it. *)
Theorem updateFolder_stores_matching_key (st : Ext A U) (folder : string) :
  let st' := snd (updateFolder git_isSigningActivated git_getSigningKey folder st) in
  keyOfFolders (manager st') !! folder <> keyOfFolders (manager st) !! folder ->
  exists w1 keyId w2 info,
    git_isSigningActivated folder (world st) = (inr true, w1) /\
    git_getSigningKey folder w1 = (inr keyId, w2) /\
    fst (getKeyInfo keyId w2) = inr info /\
    contains (fingerprint info) keyId /\
    keyOfFolders (manager st') !! folder = Some info /\
    last (output (world st')) =
      Some ("Find key " +:+ fingerprint info +:+ " for folder " +:+ folder).
Proof.
  cbv zeta. unfold updateFolder, try_catch, bind, gpg, logger_log, log, ret,
    set_keyOfFolder.
  destruct (git_isSigningActivated folder (world st)) as [[e|[|]] w1] eqn:G1;
    cbn -[getKeyInfo]; try congruence.
  destruct (git_getSigningKey folder w1) as [[e|keyId] w2] eqn:G2;
    cbn -[getKeyInfo]; try congruence.
  destruct (getKeyInfo keyId w2) as [[e|info] w3] eqn:G; cbn -[getKeyInfo];
    try congruence.
  intros _. exists w1, keyId, w2, info.
  split; [reflexivity|]. split; [exact G2|]. split; [rewrite G; reflexivity|].
  split; [|split].
  - unfold getKeyInfo, bind, textSpawn in G.
    destruct (os w2 _) as [e|raw]; [discriminate|].
    unfold lift in G. cbn [fst snd] in G.
    destruct (getKeyInfo_search (parseGpgKey raw) keyId) as [e|i] eqn:S;
      [discriminate|].
    apply getKeyInfo_search_found in S. inversion G; subst. apply S.
  - apply lookup_insert_eq.
  - apply last_snoc.
Qed.
End FolderChanges.

Lemma changeActivateFolder_without_key_witness :
  let r := Extension.changeActivateFolder "/other" sample_ext_seen in
  fst r = inr tt /\
  Extension.activateFolder (Extension.manager (snd r)) = Some "/other" /\
  Extension.lastEvent (Extension.manager (snd r)) = Some (event_of sample_key true).
Proof.
  destruct (changeActivateFolder_without_key sample_ext_seen "/other")
    as [R [F [L _]]].
  - apply lookup_singleton_ne. discriminate.
  - split; [exact R|]. split; [exact F | exact L].
Defined.

Lemma updateFolder_stores_matching_key_witness :
  exists w1 keyId w2 info,
    sample_isSigningActivated "/repo" (Extension.world sample_ext_empty) = (inr true, w1) /\
    sample_getSigningKey "/repo" w1 = (inr keyId, w2) /\
    fst (getKeyInfo keyId w2) = inr info /\
    contains (fingerprint info) keyId /\
    Extension.keyOfFolders
      (Extension.manager
         (snd (Extension.updateFolder sample_isSigningActivated sample_getSigningKey
                 "/repo" sample_ext_empty))) !! "/repo" = Some info /\
    last (output
            (Extension.world
               (snd (Extension.updateFolder sample_isSigningActivated
                       sample_getSigningKey "/repo" sample_ext_empty)))) =
      Some ("Find key " +:+ fingerprint info +:+ " for folder " +:+ "/repo").
Proof.
  apply (updateFolder_stores_matching_key sample_isSigningActivated
           sample_getSigningKey sample_ext_empty "/repo").
  vm_compute. discriminate.
Defined.

(** * The unlock command and the status bar *)

Section Command.
Import Extension.
Context {A U : Type} `{AssuanClient A}.
Variable trim : string -> string.

Lemma answers_ext (w w' : World A) (key : GpgKeyInfo) (b : bool) :
  os w' = os w -> spawned w' = spawned w -> answers w key b -> answers w' key b.
Proof.
  intros O S [outputs [E P]]. exists outputs. rewrite O, S. auto.
Qed.

Lemma unlockCurrentKey_unlocked (st : Ext A U) (passphrase folder : string)
  (key : GpgKeyInfo) :
  watching st folder key ->
  answers (world st) key true ->
  answers (after_spawn (keyinfo_call (keygrip key)) (world st)) key true ->
  exists st',
    unlockCurrentKey trim passphrase st = (inr tt, st') /\
    sessions (world st') = sessions (world st).
Proof.
  intros W Q1 Q2. pose proof W as [F [N K]].
  unfold unlockCurrentKey. rewrite F, K. unfold bind at 1.
  assert (S1 : exists m u out,
             syncStatus st =
               (inr tt,
                mkExt m u
                  (mkWorld (os (world st)) (connect (world st))
                     (spawned (world st) ++ [keyinfo_call (keygrip key)])
                     (sessions (world st)) out))).
  { rewrite (syncStatus_run st folder key W).
    rewrite (isKeyUnlocked_answers _ _ _ Q1). cbn [fst snd].
    destruct (unchanged _ _); eexists _, _, _; reflexivity. }
  destruct S1 as [m [u [out ->]]].
  unfold bind at 1. unfold gpg at 1. cbn [world manager ui].
  rewrite (isKeyUnlocked_answers _ key true)
    by (apply (answers_ext _ _ _ _ eq_refl eq_refl Q2)).
  cbn. eexists. split; reflexivity.
Qed.

(** The command never rejects.  When the input box was dismissed nothing
    happens at all.  Otherwise the unlock runs once and exactly one
    message is shown after the ones shown before: the success message
    when the unlock returned, the failure message with the text of the
    error when it threw an error object, and no message when it threw
    anything else. *)
Theorem unlockCurrentKey_command_reports (s : Ext A U * list Message)
  (answer : option string) :
  let r := unlockCurrentKey_command trim answer s in
  fst r = inr tt /\
  match answer with
  | None => snd r = s
  | Some passphrase =>
      let u := unlockCurrentKey trim passphrase (fst s) in
      snd r = (snd u, snd s ++ report (fst u))
  end.
Proof.
  cbv zeta. destruct answer as [passphrase|]; [|split; reflexivity].
  unfold unlockCurrentKey_command, try_catch, bind, in_manager, show, ret.
  destruct (unlockCurrentKey trim passphrase (fst s)) as [[e|[]] st']; cbn.
  - destruct e; cbn; rewrite ?app_nil_r; split; try reflexivity.
  - split; reflexivity.
Qed.

(** When the agent reports the key as unlocked, the command shows the
    success message for any passphrase at all, and no session is opened:
    the passphrase is not checked. *)
Theorem unlockCurrentKey_command_any_passphrase (s : Ext A U * list Message)
  (passphrase folder : string) (key : GpgKeyInfo) :
  watching (fst s) folder key ->
  answers (world (fst s)) key true ->
  answers (after_spawn (keyinfo_call (keygrip key)) (world (fst s))) key true ->
  let r := unlockCurrentKey_command trim (Some passphrase) s in
  fst r = inr tt /\
  snd (snd r) = snd s ++ [InformationMessage "Key unlocked."] /\
  sessions (world (fst (snd r))) = sessions (world (fst s)).
Proof.
  intros W Q1 Q2. cbv zeta.
  destruct (unlockCurrentKey_unlocked (fst s) passphrase folder key W Q1 Q2)
    as [st' [R S]].
  unfold unlockCurrentKey_command, try_catch, bind, in_manager, show, ret.
  rewrite R. cbn. auto.
Qed.
End Command.

Lemma unlockCurrentKey_command_any_passphrase_witness :
  let r := Extension.unlockCurrentKey_command (H := scripted) (fun s => s)
             (Some "not the passphrase") (sample_ext_on unlocked_os, []) in
  fst r = inr tt /\
  snd (snd r) = [Extension.InformationMessage "Key unlocked."] /\
  sessions (Extension.world (fst (snd r))) = [].
Proof.
  apply (unlockCurrentKey_command_any_passphrase (H := scripted) (fun s => s)
           (sample_ext_on unlocked_os, []) "not the passphrase" "/repo" sample_key).
  - apply sample_watching.
  - apply (sample_answers []).
  - apply (sample_answers [keyinfo_call (keygrip sample_key)]).
Defined.

Section StatusBar.
Import Extension.

Lemma drop_spec (n : nat) (s : string) :
  exists pre, s = pre +:+ drop n s /\
              String.length (drop n s) = String.length s - n.
Proof.
  revert s. induction n as [|n IH]; intros s.
  - exists EmptyString. destruct s; cbn; split; auto; lia.
  - destruct s as [|c s]; cbn.
    + exists EmptyString. auto.
    + destruct (IH s) as [pre [E L]]. exists (String c pre).
      rewrite append_cons, <- E. auto.
Qed.

(** The status bar shows the last 16 characters of a key identifier of
    16 characters or more.  For a shorter identifier of [n] characters
    the start [n - 16] is negative and counts from the end, so what is
    shown is its last [16 - n] characters, or all of it when [n] is at
    most 8.  The icon and the warning colour follow the lock, and the
    item is made visible. *)
Theorem updateStatusItem_short_id (event : KeyStatusEvent) (item : StatusBarItem) :
  let shown := updateStatusItem event item in
  exists pre shortId,
    keyId event = pre +:+ shortId /\
    String.length shortId = shown_length (String.length (keyId event)) /\
    item_text shown =
      "$(" +:+ (if isLocked event then "lock" else "unlock") +:+ ") " +:+ shortId /\
    item_visible shown = true /\
    item_backgroundColor shown =
      (if isLocked event then Some "statusBarItem.warningBackground" else None).
Proof.
  cbv zeta. unfold updateStatusItem, substr.
  set (n := String.length (keyId event)).
  set (from := Z.to_nat _).
  destruct (drop_spec from (keyId event)) as [pre [E L]].
  exists pre, (drop from (keyId event)). split; [exact E|]. split.
  - rewrite L. fold n. subst from. unfold shown_length.
    destruct (Nat.leb_spec 16 n); destruct (Z.ltb_spec (Z.of_nat n - 16) 0); lia.
  - cbn. auto.
Qed.
End StatusBar.

Section EmptyIdentifier.

(** Every text contains the empty text, so the search for an empty key
    identifier succeeds on the first record of the listing, whatever its
    fingerprint; it fails only on a listing without records. *)
Theorem getKeyInfo_search_empty_id (infos : list GpgKeyInfo) :
  getKeyInfo_search infos EmptyString =
    match infos with
    | [] => inl (KeyNotFound EmptyString)
    | info :: _ => inr info
    end.
Proof.
  destruct infos as [|info infos]; [reflexivity|].
  cbn [getKeyInfo_search].
  assert (I : includes (fingerprint info) EmptyString = true).
  { apply includes_spec. exists EmptyString, (fingerprint info). reflexivity. }
  rewrite I. reflexivity.
Qed.
End EmptyIdentifier.
